(** * seo-sniper-ai: the catalog scan / caption generation / retry pipeline

    A shallow embedding of the pipeline core of the application:

      - [app/services/retry.server.ts]     dead-letter queue, backoff policy,
                                           retryable-error classifier;
      - [app/services/settings.server.ts]  per-shop settings, [getMaxLength];
      - [app/services/gemini.server.ts]    [generateAltText], the caption
                                           generator with its retry loop;
      - [app/services/analytics.server.ts] scan history and per-image records;
      - [app/routes/app.test-products.tsx] [action], the scan orchestrator.

    JavaScript strings are sequences of UTF-16 code units, JavaScript
    integers are [Z], the Prisma tables are finite maps keyed by record id
    (or an append-only list where no key is ever looked up), and every
    [await] that can reject is a computation that can throw. *)

From Stdlib Require Import ZArith Lia Bool Ascii String.
From stdpp Require Import gmap strings list fin_maps sorting.
From Equations Require Import Equations.

Local Open Scope Z_scope.

(** ** JavaScript strings *)

Module JsString.

(** A string value is the list of its UTF-16 code units. *)
Abbreviation code_unit := N (only parsing).
Abbreviation jsstring := (list N) (only parsing).

(** String literals of the source, written as Rocq strings. *)
Definition lit (s : string) : jsstring :=
  List.map N_of_ascii (list_ascii_of_string s).

(** [WhiteSpace] and [LineTerminator] of ECMAScript: what [\s] matches and
    what [String.prototype.trim] removes. *)
Definition is_ws (c : code_unit) : bool :=
  ( ((9 <=? c) && (c <=? 13))        (* TAB LF VT FF CR *)
    || (c =? 32)                     (* SPACE *)
    || (c =? 160)                    (* NO-BREAK SPACE *)
    || (c =? 5760)                   (* U+1680 *)
    || ((8192 <=? c) && (c <=? 8202))(* U+2000 .. U+200A *)
    || (c =? 8232) || (c =? 8233)    (* LINE / PARAGRAPH SEPARATOR *)
    || (c =? 8239) || (c =? 8287)    (* U+202F, U+205F *)
    || (c =? 12288)                  (* U+3000 *)
    || (c =? 65279) )%N.             (* U+FEFF *)

Definition SPACE : code_unit := 32%N.

(** The character class of the quote-stripping expression: apostrophe
    (39) and double quote (34). *)
Definition is_quote (c : code_unit) : bool := ((c =? 39) || (c =? 34))%N.

Fixpoint drop_while (p : code_unit -> bool) (s : jsstring) : jsstring :=
  match s with
  | [] => []
  | c :: t => if p c then drop_while p t else s
  end.

Fixpoint drop_while_end (p : code_unit -> bool) (s : jsstring) : jsstring :=
  match s with
  | [] => []
  | c :: t =>
      match drop_while_end p t with
      | [] => if p c then [] else [c]
      | t' => c :: t'
      end
  end.

(** [s.trim()] *)
Definition trim (s : jsstring) : jsstring :=
  drop_while_end is_ws (drop_while is_ws s).

(** [s.replace(/^Q+|Q+$/g, empty)], Q the quote class: the first
    alternative can only match at index 0 and takes the whole leading run
    of quotes; the second matches the trailing run of what is left. *)
Definition strip_quotes (s : jsstring) : jsstring :=
  drop_while_end is_quote (drop_while is_quote s).

(** [s.replace(/\s+/g, ' ')]: every maximal run of white space becomes one
    SPACE.  [in_run] tells that the previous code unit was white space. *)
Fixpoint collapse_ws_from (in_run : bool) (s : jsstring) : jsstring :=
  match s with
  | [] => []
  | c :: t =>
      if is_ws c
      then (if in_run then collapse_ws_from true t
            else SPACE :: collapse_ws_from true t)
      else c :: collapse_ws_from false t
  end.

Definition collapse_ws (s : jsstring) : jsstring := collapse_ws_from false s.

(** [s.slice(0, e)]: a negative [e] counts from the end of the string. *)
Definition slice0 (e : Z) (s : jsstring) : jsstring :=
  if 0 <=? e then take (Z.to_nat e) s
  else take (length s - Z.to_nat (- e))%nat s.

(** [s.length] *)
Definition len (s : jsstring) : Z := Z.of_nat (length s).

(** [s.endsWith(t)] *)
Definition ends_with (t s : jsstring) : Prop := exists p, s = p ++ t.

(** [s.startsWith(t)] *)
Definition starts_with (t s : jsstring) : Prop := exists q, s = t ++ q.

End JsString.

Import JsString.

(** ** Settings ([settings.server.ts]) *)

(** [getMaxLength]: the argument is the [altTextLength] column, a string that
    the source casts to [AltTextLength]; any other value takes [default:]. *)
Definition getMaxLength (length : string) : Z :=
  if String.eqb length "short" then 60
  else if String.eqb length "medium" then 100
  else if String.eqb length "long" then 125
  else 100.

(** ** Output sanitation of the caption generator ([gemini.server.ts], the
    success path of [generateAltText]) *)

(** The caption before the length check:
    [alt = text.trim()], then the quote-stripping replace, then
    [alt = alt.replace(/\s+/g, ' ').trim()]. *)
Definition normalize (text : jsstring) : jsstring :=
  let alt := trim text in
  let alt := strip_quotes alt in
  trim (collapse_ws alt).

Definition ELLIPSIS : jsstring := lit "...".

(** [if (alt.length > maxLength) alt = alt.slice(0, maxLength - 3).trim() + '...';] *)
Definition enforce_max (maxLength : Z) (alt : jsstring) : jsstring :=
  if maxLength <? len alt
  then trim (slice0 (maxLength - 3) alt) ++ ELLIPSIS
  else alt.

Definition sanitize (maxLength : Z) (text : jsstring) : jsstring :=
  enforce_max maxLength (normalize text).

(** *** What a clean caption is *)

(** No white space other than SPACE, and no two white-space code units in a
    row.  [after_ws] tells that the code unit before [s] was white space. *)
Fixpoint single_spaced_from (after_ws : bool) (s : jsstring) : bool :=
  match s with
  | [] => true
  | c :: t =>
      if is_ws c
      then (c =? SPACE)%N && negb after_ws && single_spaced_from true t
      else single_spaced_from false t
  end.

Definition single_spaced (s : jsstring) : bool := single_spaced_from false s.

(** The first, respectively last, code unit exists and satisfies [p]. *)
Definition head_is (p : code_unit -> bool) (s : jsstring) : bool :=
  match s with
  | c :: _ => p c
  | [] => false
  end.

Definition last_is (p : code_unit -> bool) (s : jsstring) : bool :=
  match last s with
  | Some c => p c
  | None => false
  end.

(** A caption within the ceiling, without surrounding quotes or white space,
    and single-spaced. *)
Record clean_caption (maxLength : Z) (s : jsstring) : Prop := {
  clean_within : len s <= maxLength;
  clean_head_quote : head_is is_quote s = false;
  clean_last_quote : last_is is_quote s = false;
  clean_head_ws : head_is is_ws s = false;
  clean_last_ws : last_is is_ws s = false;
  clean_spaced : single_spaced s = true;
}.

(** [s.charAt(i)] as a code unit, 0 when out of range. *)
Definition char_at (i : Z) (s : jsstring) : code_unit :=
  if i <? 0 then 0%N else List.nth (Z.to_nat i) s 0%N.

(** ** Thrown values *)

(** What a [catch (error: any)] clause reads of the value it caught:
    [error.status], [error.message] and [String(error)]. *)
Record js_error := {
  e_status : option Z;
  e_message : jsstring;
  e_string : jsstring;
}.

(** [new Error(msg)] *)
Definition Error (msg : jsstring) : js_error :=
  {| e_status := None;
     e_message := msg;
     e_string := match msg with
                 | [] => lit "Error"
                 | _ => lit "Error: " ++ msg
                 end |}.

(** ** Regular-expression tests *)

Module Regex.

Fixpoint is_prefix (p s : jsstring) : bool :=
  match p, s with
  | [], _ => true
  | _ :: _, [] => false
  | a :: p', b :: s' => (a =? b)%N && is_prefix p' s'
  end.

(** [/lit/.test(s)] for a pattern without metacharacters. *)
Fixpoint test (p s : jsstring) : bool :=
  is_prefix p s ||
  match s with
  | [] => false
  | _ :: t => test p t
  end.

(** Case folding of the [i] flag.  Against the ASCII patterns of this
    program only the ASCII letters fold: the canonicalisation of the
    language never maps a code unit above 127 to one below 128. *)
Definition fold_case (c : code_unit) : code_unit :=
  if ((97 <=? c) && (c <=? 122))%N then (c - 32)%N else c.

(** [/lit/i.test(s)] *)
Definition test_i (p s : jsstring) : bool :=
  test (List.map fold_case p) (List.map fold_case s).

End Regex.

(** ** Backoff policy and retryable-error classifier ([retry.server.ts]) *)

Module JsNumber.

(** The values [calculateBackoffDelay] computes on: non-negative integers
    that binary64 represents exactly, and [+Infinity]. *)
Inductive number := Fin (z : Z) | Infinity.

(** Finite doubles are below [2^1024]. *)
Definition OVERFLOW : Z := 2 ^ 1024.

(** [Math.pow(2, n)] for an integer [n >= 0]: a power of two, exact until
    it overflows. *)
Definition Math_pow2 (n : Z) : number :=
  if 2 ^ n <? OVERFLOW then Fin (2 ^ n) else Infinity.

(** [a * x] for an integer [a > 0] and [x] a power of two or [+Infinity]:
    the product has the significand of [a], so it is exact until it
    overflows. *)
Definition mul (a : Z) (x : number) : number :=
  match x with
  | Fin v => if a * v <? OVERFLOW then Fin (a * v) else Infinity
  | Infinity => Infinity
  end.

(** [Math.min(x, m)] for a finite [m]. *)
Definition Math_min (x : number) (m : Z) : Z :=
  match x with
  | Fin v => Z.min v m
  | Infinity => m
  end.

End JsNumber.

(** [calculateBackoffDelay] *)
Definition calculateBackoffDelay (retryCount : Z) : Z :=
  let baseDelay := 2000 in
  let maxDelay := 300000 in
  let delay :=
    JsNumber.Math_min (JsNumber.mul baseDelay (JsNumber.Math_pow2 retryCount))
                      maxDelay in
  delay.

(** [isRetryableError]: [error?.message || String(error)] tested against the
    six patterns. *)
Definition isRetryableError (error : js_error) : bool :=
  let errorMessage :=
    match e_message error with
    | [] => e_string error
    | m => m
    end in
  Regex.test_i (lit "rate limit") errorMessage
  || Regex.test (lit "429") errorMessage
  || Regex.test_i (lit "timeout") errorMessage
  || Regex.test (lit "ECONNRESET") errorMessage
  || Regex.test (lit "ETIMEDOUT") errorMessage
  || Regex.test_i (lit "network") errorMessage.

(** ** The persistent store (the tables of the Prisma schema) *)

(** Record ids, shop domains, platform ids and URLs: opaque keys. *)
Abbreviation ident := string (only parsing).

(** Milliseconds since the epoch, the value of a [Date]. *)
Abbreviation time := Z (only parsing).

Inductive job_status := Pending | Retrying | FailedPermanent.
Inductive scan_status := Running | Completed | CompletedWithErrors.
Inductive image_status := ImgSuccess | ImgFailed | ImgSkipped.

Record Settings := {
  altTextStyle : string;
  altTextLength : string;
  customPrompt : option jsstring;
  batchSize : Z;
  autoRetry : bool;
  maxRetries : Z;
}.

Record FailedJob := {
  fj_id : ident;
  fj_shop : ident;
  fj_productId : ident;
  fj_productTitle : jsstring;
  fj_imageId : ident;
  fj_imageUrl : ident;
  fj_errorMessage : jsstring;
  fj_retryCount : Z;
  fj_maxRetries : Z;
  fj_nextRetryAt : option time;
  fj_createdAt : time;
  fj_lastAttemptAt : time;
  fj_status : job_status;
}.

Record ScanHistory := {
  sh_id : ident;
  sh_shop : ident;
  sh_startedAt : time;
  sh_completedAt : option time;
  sh_totalProducts : Z;
  sh_totalImages : Z;
  sh_imagesProcessed : Z;
  sh_imagesSkipped : Z;
  sh_imagesFailed : Z;
  sh_status : scan_status;
  sh_forceAll : bool;
}.

Record ProcessedImage := {
  pi_scanId : ident;
  pi_productId : ident;
  pi_productTitle : jsstring;
  pi_imageId : ident;
  pi_imageUrl : ident;
  pi_oldAltText : option jsstring;
  pi_newAltText : jsstring;
  pi_processedAt : time;
  pi_status : image_status;
  pi_errorMessage : option jsstring;
}.

(** [AppSettings] has one row per shop (unique key [shop]); [ScanHistory] and
    [FailedJob] are keyed by their generated id; [ProcessedImage] rows are
    only ever created and listed, so the table is the list of its rows in
    creation order. *)
Record Db := {
  appSettings : gmap ident Settings;
  scanHistory : gmap ident ScanHistory;
  processedImage : list ProcessedImage;
  failedJob : gmap ident FailedJob;
}.

Definition empty_db : Db :=
  {| appSettings := ∅; scanHistory := ∅; processedImage := []; failedJob := ∅ |}.

(** The outcome of an awaited call: it rejects with a thrown value or
    resolves. *)
Abbreviation result A := (js_error + A)%type (only parsing).

(** A store operation: rejects and leaves the store as it is, or resolves
    with a value and the new store. *)
Abbreviation db_op A := (Db -> result (A * Db)) (only parsing).

(** The id default of a created row: a key the table does not hold. *)
Definition generated_id {V} (table : gmap ident V) : ident := fresh (dom table).

(** *** [settings.server.ts] *)

Definition DEFAULT_SETTINGS : Settings :=
  {| altTextStyle := "professional";
     altTextLength := "medium";
     customPrompt := None;
     batchSize := 3;
     autoRetry := true;
     maxRetries := 3 |}.

(** [getSettings]: the row of the shop, created with the defaults when it
    does not exist. *)
Definition getSettings (shop : ident) : db_op Settings := fun db =>
  match appSettings db !! shop with
  | Some settings => inr (settings, db)
  | None =>
      inr (DEFAULT_SETTINGS,
           {| appSettings := <[shop := DEFAULT_SETTINGS]> (appSettings db);
              scanHistory := scanHistory db;
              processedImage := processedImage db;
              failedJob := failedJob db |})
  end.

(** *** [retry.server.ts]: the dead-letter queue *)

Record FailedJobData := {
  d_shop : ident;
  d_productId : ident;
  d_productTitle : jsstring;
  d_imageId : ident;
  d_imageUrl : ident;
  d_errorMessage : jsstring;
  d_maxRetries : option Z;
}.

Definition set_failedJob (jobs : gmap ident FailedJob) (db : Db) : Db :=
  {| appSettings := appSettings db;
     scanHistory := scanHistory db;
     processedImage := processedImage db;
     failedJob := jobs |}.

(** [x || d] on an optional number: [undefined] and [0] are falsy. *)
Definition or_default (x : option Z) (d : Z) : Z :=
  match x with
  | Some v => if v =? 0 then d else v
  | None => d
  end.

(** [addFailedJob].  [now] is the clock reading of the call; the columns
    [createdAt] and [lastAttemptAt] take the schema default, the current
    time. *)
Definition addFailedJob (now : time) (data : FailedJobData) : db_op FailedJob :=
  fun db =>
  let nextRetryAt := now + 60000 in
  let job :=
    {| fj_id := generated_id (failedJob db);
       fj_shop := d_shop data;
       fj_productId := d_productId data;
       fj_productTitle := d_productTitle data;
       fj_imageId := d_imageId data;
       fj_imageUrl := d_imageUrl data;
       fj_errorMessage := d_errorMessage data;
       fj_maxRetries := or_default (d_maxRetries data) 3;
       fj_nextRetryAt := Some nextRetryAt;
       fj_retryCount := 0;
       fj_status := Pending;
       fj_createdAt := now;
       fj_lastAttemptAt := now |} in
  inr (job, set_failedJob (<[fj_id job := job]> (failedJob db)) db).

(** [markRetrying]: an update of a row that does not exist rejects. *)
Definition markRetrying (now : time) (jobId : ident) : db_op FailedJob :=
  fun db =>
  match failedJob db !! jobId with
  | None => inl (Error (lit "Record to update not found."))
  | Some job =>
      let job' :=
        {| fj_id := fj_id job; fj_shop := fj_shop job;
           fj_productId := fj_productId job;
           fj_productTitle := fj_productTitle job;
           fj_imageId := fj_imageId job; fj_imageUrl := fj_imageUrl job;
           fj_errorMessage := fj_errorMessage job;
           fj_retryCount := fj_retryCount job;
           fj_maxRetries := fj_maxRetries job;
           fj_nextRetryAt := fj_nextRetryAt job;
           fj_createdAt := fj_createdAt job;
           fj_lastAttemptAt := now;
           fj_status := Retrying |} in
      inr (job', set_failedJob (<[jobId := job']> (failedJob db)) db)
  end.

(** The time values a [Date] can hold are those at most 8.64e15 ms away
    from the epoch; [new Date(t)] for any other number is an Invalid Date. *)
Definition MAX_TIME : Z := 8640000000000000.

Definition valid_time (t : Z) : bool := (- MAX_TIME <=? t) && (t <=? MAX_TIME).

(** [new Date(t)]: the date, or [None] for an Invalid Date. *)
Definition new_Date (t : Z) : option time :=
  if valid_time t then Some t else None.

(** [scheduleRetry].  [delayMs] is the optional second argument (default
    120000), [now] the reading of [Date.now()] and [stamp] the later
    [new Date()] of the update.  [nextRetryAt] is built before the branch
    and written only by the second update, which the store layer rejects,
    before it reaches the table, when the date is invalid. *)
Definition scheduleRetry (now stamp : time) (jobId : ident)
    (delayMs : option Z) : db_op FailedJob := fun db =>
  let delayMs := match delayMs with Some d => d | None => 120000 end in
  match failedJob db !! jobId with
  | None => inl (Error (lit "Job not found"))
  | Some job =>
      let newRetryCount := fj_retryCount job + 1 in
      let nextRetryAt := new_Date (now + delayMs) in
      if fj_maxRetries job <=? newRetryCount then
        let job' :=
          {| fj_id := fj_id job; fj_shop := fj_shop job;
             fj_productId := fj_productId job;
             fj_productTitle := fj_productTitle job;
             fj_imageId := fj_imageId job; fj_imageUrl := fj_imageUrl job;
             fj_errorMessage := fj_errorMessage job;
             fj_retryCount := newRetryCount;
             fj_maxRetries := fj_maxRetries job;
             fj_nextRetryAt := fj_nextRetryAt job;
             fj_createdAt := fj_createdAt job;
             fj_lastAttemptAt := stamp;
             fj_status := FailedPermanent |} in
        inr (job', set_failedJob (<[jobId := job']> (failedJob db)) db)
      else
        match nextRetryAt with
        | None =>
            inl (Error (lit
              "Invalid value for argument nextRetryAt: Provided Date object is invalid. Expected Date."))
        | Some nextRetryAt =>
            let job' :=
              {| fj_id := fj_id job; fj_shop := fj_shop job;
                 fj_productId := fj_productId job;
                 fj_productTitle := fj_productTitle job;
                 fj_imageId := fj_imageId job; fj_imageUrl := fj_imageUrl job;
                 fj_errorMessage := fj_errorMessage job;
                 fj_retryCount := newRetryCount;
                 fj_maxRetries := fj_maxRetries job;
                 fj_nextRetryAt := Some nextRetryAt;
                 fj_createdAt := fj_createdAt job;
                 fj_lastAttemptAt := stamp;
                 fj_status := Pending |} in
            inr (job', set_failedJob (<[jobId := job']> (failedJob db)) db)
        end
  end.

(** [removeFailedJob] *)
Definition removeFailedJob (jobId : ident) : db_op FailedJob := fun db =>
  match failedJob db !! jobId with
  | None => inl (Error (lit "Record to delete does not exist."))
  | Some job => inr (job, set_failedJob (delete jobId (failedJob db)) db)
  end.

(** *** [analytics.server.ts]: scan history and per-image records *)

Definition set_scanHistory (scans : gmap ident ScanHistory) (db : Db) : Db :=
  {| appSettings := appSettings db;
     scanHistory := scans;
     processedImage := processedImage db;
     failedJob := failedJob db |}.

(** [createScanHistory]: [forceAll] is optional (default [false]); the other
    columns take the schema defaults. *)
Definition createScanHistory (now : time) (shop : ident)
    (forceAll : option bool) : db_op ScanHistory := fun db =>
  let forceAll := match forceAll with Some b => b | None => false end in
  let scan :=
    {| sh_id := generated_id (scanHistory db);
       sh_shop := shop;
       sh_startedAt := now;
       sh_completedAt := None;
       sh_totalProducts := 0;
       sh_totalImages := 0;
       sh_imagesProcessed := 0;
       sh_imagesSkipped := 0;
       sh_imagesFailed := 0;
       sh_status := Running;
       sh_forceAll := forceAll |} in
  inr (scan, set_scanHistory (<[sh_id scan := scan]> (scanHistory db)) db).

Record ScanStats := {
  totalProducts : Z;
  totalImages : Z;
  imagesProcessed : Z;
  imagesSkipped : Z;
  imagesFailed : Z;
}.

(** [completeScanHistory] *)
Definition completeScanHistory (now : time) (scanId : ident)
    (stats : ScanStats) : db_op ScanHistory := fun db =>
  match scanHistory db !! scanId with
  | None => inl (Error (lit "Record to update not found."))
  | Some scan =>
      let scan' :=
        {| sh_id := sh_id scan;
           sh_shop := sh_shop scan;
           sh_startedAt := sh_startedAt scan;
           sh_totalProducts := totalProducts stats;
           sh_totalImages := totalImages stats;
           sh_imagesProcessed := imagesProcessed stats;
           sh_imagesSkipped := imagesSkipped stats;
           sh_imagesFailed := imagesFailed stats;
           sh_completedAt := Some now;
           sh_status := if 0 <? imagesFailed stats
                        then CompletedWithErrors else Completed;
           sh_forceAll := sh_forceAll scan |} in
      inr (scan', set_scanHistory (<[scanId := scan']> (scanHistory db)) db)
  end.

Record ImageProcessingData := {
  r_scanId : ident;
  r_productId : ident;
  r_productTitle : jsstring;
  r_imageId : ident;
  r_imageUrl : ident;
  r_oldAltText : option jsstring;
  r_newAltText : jsstring;
  r_status : image_status;
  r_errorMessage : option jsstring;
}.

(** [recordImageProcessing]: the row refers to its scan (foreign key), so the
    create rejects when the scan is not in the store. *)
Definition recordImageProcessing (now : time) (data : ImageProcessingData)
    : db_op ProcessedImage := fun db =>
  match scanHistory db !! r_scanId data with
  | None => inl (Error (lit "Foreign key constraint violated"))
  | Some _ =>
      let row :=
        {| pi_scanId := r_scanId data;
           pi_productId := r_productId data;
           pi_productTitle := r_productTitle data;
           pi_imageId := r_imageId data;
           pi_imageUrl := r_imageUrl data;
           pi_oldAltText := r_oldAltText data;
           pi_newAltText := r_newAltText data;
           pi_processedAt := now;
           pi_status := r_status data;
           pi_errorMessage := r_errorMessage data |} in
      inr (row,
           {| appSettings := appSettings db;
              scanHistory := scanHistory db;
              processedImage := processedImage db ++ [row];
              failedJob := failedJob db |})
  end.

(** ** The caption generator ([gemini.server.ts]) *)

(** One pass through the [try] block of the retry loop: the image fetch and
    the provider call resolve with the raw text of the response, or one of
    them rejects. *)
Inductive attempt_outcome :=
| Resolved (text : jsstring)
| Rejected (error : js_error).

(** What a run of the generator does that the outside can observe: it
    starts an attempt, or it sleeps ([setTimeout]) for some milliseconds. *)
Inductive event :=
| Attempt (attempt : Z)
| Wait (ms : Z).

(** The test of the [catch] clause:
    [error.status === 429 || /rate limit/i.test(error.message)]. *)
Definition is_rate_limit (error : js_error) : bool :=
  match e_status error with
  | Some s => s =? 429
  | None => false
  end
  || Regex.test_i (lit "rate limit") (e_message error).

(** How the [for] loop ends. *)
Inductive loop_exit :=
| Return (alt : jsstring)
| Fallthrough (lastError : option js_error).

Definition emit (evs : list event) (r : list event * loop_exit)
    : list event * loop_exit :=
  (evs ++ r.1, r.2).

Section RetryLoop.

(** [maxLength] is the ceiling of the shop, [maxRetries] the argument of the
    call, and [outcome] what the attempt with a given number meets. *)
Variable maxLength : Z.
Variable maxRetries : Z.
Variable outcome : Z -> attempt_outcome.

(** The loop [for (let attempt = 0; attempt < maxRetries; attempt++)],
    entered at [attempt] with the current [lastError]. *)
Equations? retry_loop (attempt : Z) (lastError : option js_error)
    : list event * loop_exit
    by wf (Z.to_nat (maxRetries - attempt)) lt :=
  retry_loop attempt lastError with Z_lt_dec attempt maxRetries := {
    | right _ := ([], Fallthrough lastError)
    | left _ with outcome attempt := {
        | Resolved text :=
            ([Attempt attempt], Return (sanitize maxLength text))
        | Rejected error :=
            if is_rate_limit error then
              if attempt <? maxRetries - 1 then
                let delay := calculateBackoffDelay attempt in
                emit [Attempt attempt; Wait delay]
                     (retry_loop (attempt + 1) (Some error))
              else
                emit [Attempt attempt]
                     (retry_loop (attempt + 1) (Some error))
            else if attempt <? maxRetries - 1 then
              let delay := 1000 * (attempt + 1) in
              emit [Attempt attempt; Wait delay]
                   (retry_loop (attempt + 1) (Some error))
            else
              emit [Attempt attempt]
                   (retry_loop (attempt + 1) (Some error)) } }.
Proof. all: lia. Qed.

(** The statements after the loop: the value of a [return] inside it, or
    the error thrown when the loop falls through. *)
Definition after_loop (exit : loop_exit) : result jsstring :=
  match exit with
  | Return alt => inr alt
  | Fallthrough lastError =>
      let status := match lastError with
                    | Some e => e_status e
                    | None => None
                    end in
      let message := match lastError with
                     | Some e => e_message e
                     | None => []
                     end in
      if match status with Some s => s =? 429 | None => false end
      then inl (Error (lit "Rate limit exceeded - retry later"))
      else inl (Error (lit "Failed to generate alt-text: " ++
                       match message with
                       | [] => lit "Unknown error"
                       | m => m
                       end))
  end.

(** The retry loop and what follows it: the events of the run and its
    result. *)
Definition run_attempts : list event * result jsstring :=
  let r := retry_loop 0 None in
  (r.1, after_loop r.2).

End RetryLoop.

(** ** Requests: the store, the platform, the provider and the clock *)

(** A media node of the product query: the fragment on [MediaImage] leaves
    [image] empty for media that are not images. *)
Record MediaImage := {
  m_id : ident;
  m_image : option ident;
  m_alt : option jsstring;
}.

Record ProductNode := {
  p_id : ident;
  p_title : jsstring;
  p_handle : ident;
  p_tags : list jsstring;
  p_media : list MediaImage;
}.

Record UserError := {
  ue_field : list jsstring;
  ue_message : jsstring;
}.

(** The body of the mutation response as far as [action] reads it:
    [data?.productUpdateMedia?.userErrors], absent when a link of the chain
    is. *)
Record UpdateResult := {
  userErrors : option (list UserError);
}.

(** Everything outside the process, as a function of the number of the
    external call ([tick]) that asks for it. *)
Record Env := {
  GEMINI_API_KEY : option jsstring;
  date_now : nat -> time;
  store_fault : nat -> option js_error;
  provider : nat -> Z -> attempt_outcome;
  products_query : nat -> result (list ProductNode);
  media_update : nat -> result UpdateResult;
}.

(** The local counters of [action]. *)
Record Counters := {
  c_totalImages : Z;
  c_missingAltText : Z;
  c_updatedCount : Z;
  c_errorCount : Z;
}.

Record St := {
  db : Db;
  tick : nat;
  log : list event;
  vars : Counters;
}.

(** An [async] computation: it ends by resolving or by rejecting, and what
    it did to the state before a rejection stays done. *)
Definition M (A : Type) : Type := St -> result A * St.

#[global] Instance M_ret : MRet M := fun A a st => (inr a, st).

#[global] Instance M_bind : MBind M := fun A B f m st =>
  match m st with
  | (inr a, st') => f a st'
  | (inl e, st') => (inl e, st')
  end.

Definition throw {A} (e : js_error) : M A := fun st => (inl e, st).

(** [try { body } catch (error) { handler }] *)
Definition try_catch {A} (body : M A) (handler : js_error -> M A) : M A :=
  fun st =>
  match body st with
  | (inr a, st') => (inr a, st')
  | (inl e, st') => handler e st'
  end.

Definition next_tick (st : St) : St :=
  {| db := db st; tick := S (tick st); log := log st; vars := vars st |}.

Definition set_db (d : Db) (st : St) : St :=
  {| db := d; tick := tick st; log := log st; vars := vars st |}.

Definition set_vars (c : Counters) (st : St) : St :=
  {| db := db st; tick := tick st; log := log st; vars := c |}.

Section Request.

Variable E : Env.

(** [await op(...)] for an operation of the store layer: the call can be
    rejected before it reaches the tables. *)
Definition await_db {A} (op : time -> db_op A) : M A := fun st =>
  let st1 := next_tick st in
  match store_fault E (tick st) with
  | Some e => (inl e, st1)
  | None =>
      match op (date_now E (tick st)) (db st) with
      | inl e => (inl e, st1)
      | inr (a, d) => (inr a, set_db d st1)
      end
  end.

(** [await] of a platform call. *)
Definition await_env {A} (call : nat -> result A) : M A := fun st =>
  (call (tick st), next_tick st).

(** [await new Promise(resolve => setTimeout(resolve, ms))] *)
Definition sleep (ms : Z) : M unit := fun st =>
  (inr tt, {| db := db st; tick := tick st; log := log st ++ [Wait ms];
              vars := vars st |}).

Definition trace (evs : list event) : M unit := fun st =>
  (inr tt, {| db := db st; tick := tick st; log := log st ++ evs;
              vars := vars st |}).

(** [generateAltText].  The prompt and the image only reach the provider,
    whose answers are those of the environment for this call. *)
Definition generateAltText (imageUrl : ident) (productTitle : jsstring)
    (productTags : list jsstring) (shop : ident) (maxRetries : option Z)
    : M jsstring :=
  let maxRetries := match maxRetries with Some r => r | None => 3 end in
  match GEMINI_API_KEY E with
  | None | Some [] =>
      throw (Error (lit
        "GEMINI_API_KEY is not set in the environment variables."))
  | Some _ =>
      settings ← await_db (fun _ => getSettings shop);
      let maxLength := getMaxLength (altTextLength settings) in
      outcome ← await_env (fun t => inr (provider E t));
      let run := run_attempts maxLength maxRetries outcome in
      trace run.1;;
      match run.2 with
      | inr alt => mret alt
      | inl e => throw e
      end
  end.

End Request.

(** ** The scan orchestrator ([app.test-products.tsx], [action]) *)

Section Scan.

Variable E : Env.

Definition init_vars : M unit := fun st =>
  (inr tt, set_vars {| c_totalImages := 0; c_missingAltText := 0;
                       c_updatedCount := 0; c_errorCount := 0 |} st).

Definition get_vars : M Counters := fun st => (inr (vars st), st).

(** [totalImages++] *)
Definition incr_totalImages : M unit := fun st =>
  let c := vars st in
  (inr tt, set_vars {| c_totalImages := c_totalImages c + 1;
                       c_missingAltText := c_missingAltText c;
                       c_updatedCount := c_updatedCount c;
                       c_errorCount := c_errorCount c |} st).

(** [missingAltText++] *)
Definition incr_missingAltText : M unit := fun st =>
  let c := vars st in
  (inr tt, set_vars {| c_totalImages := c_totalImages c;
                       c_missingAltText := c_missingAltText c + 1;
                       c_updatedCount := c_updatedCount c;
                       c_errorCount := c_errorCount c |} st).

(** [updatedCount++] *)
Definition incr_updatedCount : M unit := fun st =>
  let c := vars st in
  (inr tt, set_vars {| c_totalImages := c_totalImages c;
                       c_missingAltText := c_missingAltText c;
                       c_updatedCount := c_updatedCount c + 1;
                       c_errorCount := c_errorCount c |} st).

(** [errorCount++] *)
Definition incr_errorCount : M unit := fun st =>
  let c := vars st in
  (inr tt, set_vars {| c_totalImages := c_totalImages c;
                       c_missingAltText := c_missingAltText c;
                       c_updatedCount := c_updatedCount c;
                       c_errorCount := c_errorCount c + 1 |} st).

(** [for (const x of xs) body] *)
Fixpoint for_of {A} (xs : list A) (body : A -> M unit) : M unit :=
  match xs with
  | [] => mret tt
  | x :: rest => body x;; for_of rest body
  end.

Definition is_empty (s : jsstring) : bool :=
  match s with [] => true | _ => false end.

(** [currentAltText && currentAltText.trim() !== empty] *)
Definition has_alt_text (currentAltText : option jsstring) : bool :=
  match currentAltText with
  | Some alt => negb (is_empty alt) && negb (is_empty (trim alt))
  | None => false
  end.

(** [userErrors?.length > 0] *)
Definition has_user_errors (r : UpdateResult) : bool :=
  match userErrors r with
  | Some (_ :: _) => true
  | _ => false
  end.

Definition NO_ALT_TEXT : jsstring := lit "No alt-text generated".

(** The [try ... catch] statement that handles one image in need of a
    caption. *)
Definition process_attempt (settings : Settings) (scanId shop : ident)
    (product : ProductNode) (mediaId imageUrl : ident)
    (currentAltText : option jsstring) : M unit :=
  try_catch
    (newAltText ← generateAltText E imageUrl (p_title product)
                    (p_tags product) shop (Some (maxRetries settings));
     if is_empty newAltText then
       incr_errorCount;;
       _ ← await_db E (fun now => recordImageProcessing now
             {| r_scanId := scanId;
                r_productId := p_id product;
                r_productTitle := p_title product;
                r_imageId := mediaId;
                r_imageUrl := imageUrl;
                r_oldAltText := currentAltText;
                r_newAltText := [];
                r_status := ImgFailed;
                r_errorMessage := Some NO_ALT_TEXT |});
       if autoRetry settings then
         _ ← await_db E (fun now => addFailedJob now
               {| d_shop := shop;
                  d_productId := p_id product;
                  d_productTitle := p_title product;
                  d_imageId := mediaId;
                  d_imageUrl := imageUrl;
                  d_errorMessage := NO_ALT_TEXT;
                  d_maxRetries := Some (maxRetries settings) |});
         mret tt
       else mret tt
     else
       updateResult ← await_env (media_update E);
       (if has_user_errors updateResult then
          incr_errorCount
        else
          incr_updatedCount;;
          _ ← await_db E (fun now => recordImageProcessing now
                {| r_scanId := scanId;
                   r_productId := p_id product;
                   r_productTitle := p_title product;
                   r_imageId := mediaId;
                   r_imageUrl := imageUrl;
                   r_oldAltText := currentAltText;
                   r_newAltText := newAltText;
                   r_status := ImgSuccess;
                   r_errorMessage := None |});
          mret tt);;
       sleep 2000)
    (fun error =>
       incr_errorCount;;
       _ ← await_db E (fun now => recordImageProcessing now
             {| r_scanId := scanId;
                r_productId := p_id product;
                r_productTitle := p_title product;
                r_imageId := mediaId;
                r_imageUrl := imageUrl;
                r_oldAltText := currentAltText;
                r_newAltText := [];
                r_status := ImgFailed;
                r_errorMessage := Some (e_message error) |});
       if autoRetry settings && isRetryableError error then
         _ ← await_db E (fun now => addFailedJob now
               {| d_shop := shop;
                  d_productId := p_id product;
                  d_productTitle := p_title product;
                  d_imageId := mediaId;
                  d_imageUrl := imageUrl;
                  d_errorMessage := e_message error;
                  d_maxRetries := Some (maxRetries settings) |});
         mret tt
       else mret tt).

(** The body of the inner loop, for a media node with its image URL. *)
Definition process_image (forceAll : bool) (settings : Settings)
    (scanId shop : ident) (product : ProductNode)
    (mediaEdge : MediaImage * ident) : M unit :=
  incr_totalImages;;
  let mediaId := m_id mediaEdge.1 in
  let imageUrl := mediaEdge.2 in
  let currentAltText := m_alt mediaEdge.1 in
  if negb forceAll && has_alt_text currentAltText then mret tt
  else
    incr_missingAltText;;
    process_attempt settings scanId shop product mediaId imageUrl
                    currentAltText.

(** [product.media.edges.filter(m => m.node.image)], each node with the URL
    the loop reads from it. *)
Definition image_media (product : ProductNode) : list (MediaImage * ident) :=
  omap (fun m => match m_image m with
                 | Some url => Some (m, url)
                 | None => None
                 end) (p_media product).

(** The body of the outer loop. *)
Definition process_product (forceAll : bool) (settings : Settings)
    (scanId shop : ident) (product : ProductNode) : M unit :=
  let imageMedia := image_media product in
  match imageMedia with
  | [] => mret tt
  | _ => for_of imageMedia (process_image forceAll settings scanId shop product)
  end.

(** [action], for the shop of the session and the [forceAll] field of the
    form. *)
Definition action (shop : ident) (forceAll : bool) : M Counters :=
  settings ← await_db E (fun _ => getSettings shop);
  scanRecord ← await_db E (fun now => createScanHistory now shop (Some forceAll));
  products ← await_env (products_query E);
  init_vars;;
  for_of products (process_product forceAll settings (sh_id scanRecord) shop);;
  c ← get_vars;
  _ ← await_db E (fun now => completeScanHistory now (sh_id scanRecord)
        {| totalProducts := Z.of_nat (length products);
           totalImages := c_totalImages c;
           imagesProcessed := c_updatedCount c;
           imagesSkipped := c_totalImages c - c_missingAltText c;
           imagesFailed := c_errorCount c |});
  mret c.

End Scan.


(** ** Histories of the store *)

(** One call of a store operation that resolves. *)
Inductive store_step : Db -> Db -> Prop :=
| step_getSettings shop d s d' :
    getSettings shop d = inr (s, d') -> store_step d d'
| step_addFailedJob now data d job d' :
    addFailedJob now data d = inr (job, d') -> store_step d d'
| step_markRetrying now jobId d job d' :
    markRetrying now jobId d = inr (job, d') -> store_step d d'
| step_scheduleRetry now stamp jobId delayMs d job d' :
    scheduleRetry now stamp jobId delayMs d = inr (job, d') -> store_step d d'
| step_removeFailedJob jobId d job d' :
    removeFailedJob jobId d = inr (job, d') -> store_step d d'
| step_createScanHistory now shop forceAll d scan d' :
    createScanHistory now shop forceAll d = inr (scan, d') -> store_step d d'
| step_completeScanHistory now scanId stats d scan d' :
    completeScanHistory now scanId stats d = inr (scan, d') -> store_step d d'
| step_recordImageProcessing now data d row d' :
    recordImageProcessing now data d = inr (row, d') -> store_step d d'.

(** The stores the operations can build from the empty one. *)
Definition reachable (d : Db) : Prop := rtc store_step empty_db d.

Definition scan_terminal (scan : ScanHistory) : Prop :=
  sh_status scan = Completed \/ sh_status scan = CompletedWithErrors.

(** The completion time is set exactly for the terminal statuses. *)
Definition scan_consistent (scan : ScanHistory) : Prop :=
  is_Some (sh_completedAt scan) <-> scan_terminal scan.

(** [n] calls of [scheduleRetry] in a row on the same job, each at the clock
    reading [now]. *)
Fixpoint reschedule_times (n : nat) (now : time) (jobId : ident) (d : Db)
    : result Db :=
  match n with
  | O => inr d
  | S n' =>
      match scheduleRetry now now jobId None d with
      | inl e => inl e
      | inr (_, d') => reschedule_times n' now jobId d'
      end
  end.

(** ** The retry schedule in the words of the design *)

(** The wait after a failed attempt that is not the last: the backoff policy
    for a rate-limiting failure, one second times the attempt count
    otherwise. *)
Definition expected_wait (error : js_error) (attempt : Z) : Z :=
  if is_rate_limit error then calculateBackoffDelay attempt
  else 1000 * (attempt + 1).

(** What attempt number [attempt] contributes to a run with [maxRetries]
    allowed attempts: the attempt, then a wait if it failed and was not the
    last allowed one. *)
Definition segment (maxRetries : Z) (outcome : Z -> attempt_outcome)
    (attempt : Z) : list event :=
  Attempt attempt ::
  match outcome attempt with
  | Rejected error =>
      if attempt <? maxRetries - 1 then [Wait (expected_wait error attempt)]
      else []
  | Resolved _ => []
  end.

Definition is_attempt (ev : event) : bool :=
  match ev with
  | Attempt _ => true
  | Wait _ => false
  end.

(** The number of attempts in a run. *)
Definition attempts_made (evs : list event) : nat :=
  length (List.filter is_attempt evs).

(** ** Frames *)

(** What a step leaves alone: the counters and the three tables of the scan
    pipeline. *)
Definition same_tables (st st' : St) : Prop :=
  vars st' = vars st
  /\ scanHistory (db st') = scanHistory (db st)
  /\ processedImage (db st') = processedImage (db st)
  /\ failedJob (db st') = failedJob (db st).

(** The counters after [errorCount++]. *)
Definition error_counted (c : Counters) : Counters :=
  {| c_totalImages := c_totalImages c;
     c_missingAltText := c_missingAltText c;
     c_updatedCount := c_updatedCount c;
     c_errorCount := c_errorCount c + 1 |}.

(** A failure record of the image [mediaId] in the scan [scanId]. *)
Definition failure_record (scanId mediaId : ident) (row : ProcessedImage)
    : Prop :=
  pi_status row = ImgFailed /\ pi_imageId row = mediaId
  /\ pi_scanId row = scanId.

(** ** Scan aggregates in the words of the design *)

(** The store takes every call. *)
Definition reliable_store (E : Env) : Prop := forall t, store_fault E t = None.

(** The images of a catalog, in the order the scan visits them. *)
Definition catalog_images (products : list ProductNode)
    : list (MediaImage * ident) :=
  flat_map image_media products.

(** An image lacks alt text, or the scan is forced. *)
Definition needs_caption (forceAll : bool) (mediaEdge : MediaImage * ident)
    : bool :=
  forceAll || negb (has_alt_text (m_alt mediaEdge.1)).

(** The number of images of a catalog that need a caption. *)
Definition missing_count (forceAll : bool) (products : list ProductNode) : Z :=
  Z.of_nat (length (List.filter (needs_caption forceAll)
                                (catalog_images products))).
(** ** Concrete inputs *)

Definition clean_example : jsstring :=
  lit "Blue snowboard with a liquid-drip design".

(** A caption of 68 code units, already clean, whose code unit 56 is a
    SPACE. *)
Definition space_at_cut : jsstring :=
  lit "Blue snowboard with a liquid-drip design on a winter for est graphic".

Definition long_caption : jsstring :=
  lit "  'Blue   snowboard with a liquid-drip design on a winter forest bg and more words here'  ".

Definition job_example : FailedJob :=
  {| fj_id := "job-1"; fj_shop := "demo.myshopify.com";
     fj_productId := "gid://shopify/Product/1";
     fj_productTitle := lit "Snowboard";
     fj_imageId := "gid://shopify/MediaImage/1";
     fj_imageUrl := "https://cdn.example/1.jpg";
     fj_errorMessage := lit "Rate limit exceeded - retry later";
     fj_retryCount := 0; fj_maxRetries := 3;
     fj_nextRetryAt := Some 60000; fj_createdAt := 0; fj_lastAttemptAt := 0;
     fj_status := Pending |}.

Definition queue_example : Db :=
  set_failedJob (<["job-1" := job_example]> ∅) empty_db.

Definition job_data_example : FailedJobData :=
  {| d_shop := "demo.myshopify.com";
     d_productId := "gid://shopify/Product/1";
     d_productTitle := lit "Snowboard";
     d_imageId := "gid://shopify/MediaImage/1";
     d_imageUrl := "https://cdn.example/1.jpg";
     d_errorMessage := lit "No alt-text generated";
     d_maxRetries := Some 0 |}.

Definition stats_example : ScanStats :=
  {| totalProducts := 2; totalImages := 2; imagesProcessed := 0;
     imagesSkipped := 1; imagesFailed := 1 |}.

Definition scan_example : ScanHistory :=
  {| sh_id := "0"; sh_shop := "demo.myshopify.com"; sh_startedAt := 0;
     sh_completedAt := None; sh_totalProducts := 0; sh_totalImages := 0;
     sh_imagesProcessed := 0; sh_imagesSkipped := 0; sh_imagesFailed := 0;
     sh_status := Running; sh_forceAll := false |}.

(** The store after one scan was started in the empty store. *)
Definition scan_started : Db :=
  set_scanHistory (<["0" := scan_example]> ∅) empty_db.

(** A provider failure that says it is rate limiting in its message only. *)
Definition rate_limit_by_message : js_error :=
  Error (lit "Rate limit reached for requests").

(** A provider failure with the too-many-requests status. *)
Definition rate_limit_by_status : js_error :=
  {| e_status := Some 429;
     e_message := lit "Resource has been exhausted";
     e_string := lit "Error: Resource has been exhausted" |}.

(** Three attempts that all meet the too-many-requests status. *)
Definition always_429 (attempt : Z) : attempt_outcome :=
  Rejected rate_limit_by_status.

(** Attempts that all fail with the rate-limit wording and no status. *)
Definition always_rate_limit_message (attempt : Z) : attempt_outcome :=
  Rejected rate_limit_by_message.

Definition SHOP : ident := "demo.myshopify.com".

(** A product with one image that has no alt text. *)
Definition product_a : ProductNode :=
  {| p_id := "gid://shopify/Product/1";
     p_title := lit "Liquid snowboard";
     p_handle := "liquid-snowboard";
     p_tags := [lit "winter"];
     p_media := [ {| m_id := "gid://shopify/MediaImage/1";
                     m_image := Some "https://cdn.example/1.jpg";
                     m_alt := None |} ] |}.

(** A product with one image whose alt text is already there. *)
Definition product_b : ProductNode :=
  {| p_id := "gid://shopify/Product/2";
     p_title := lit "Forest snowboard";
     p_handle := "forest-snowboard";
     p_tags := [];
     p_media := [ {| m_id := "gid://shopify/MediaImage/2";
                     m_image := Some "https://cdn.example/2.jpg";
                     m_alt := Some (lit "existing") |} ] |}.

(** Everything answers: the provider returns a caption at the first attempt,
    the platform accepts the update, the store takes every call. *)
Definition calm_env (products : list ProductNode) : Env :=
  {| GEMINI_API_KEY := Some (lit "key");
     date_now := fun t => 1000 * Z.of_nat t;
     store_fault := fun _ => None;
     provider := fun _ _ => Resolved (lit "Blue snowboard with a liquid-drip design");
     products_query := fun _ => inr products;
     media_update := fun _ => inr {| userErrors := Some [] |} |}.

(** As [calm_env], but the store rejects the call number 6 once: in a scan of
    [product_a] alone that is the write of the success record. *)
Definition flaky_store_env : Env :=
  {| GEMINI_API_KEY := Some (lit "key");
     date_now := fun t => 1000 * Z.of_nat t;
     store_fault := fun t => if (t =? 6)%nat
                             then Some (Error (lit "Operations timed out"))
                             else None;
     provider := fun _ _ => Resolved (lit "Blue snowboard with a liquid-drip design");
     products_query := fun _ => inr [product_a];
     media_update := fun _ => inr {| userErrors := Some [] |} |}.

(** As [calm_env], but the platform answers the update with a field error. *)
Definition rejecting_platform_env : Env :=
  {| GEMINI_API_KEY := Some (lit "key");
     date_now := fun t => 1000 * Z.of_nat t;
     store_fault := fun _ => None;
     provider := fun _ _ => Resolved (lit "Blue snowboard with a liquid-drip design");
     products_query := fun _ => inr [product_a];
     media_update := fun _ =>
       inr {| userErrors :=
                Some [ {| ue_field := [lit "media"; lit "0"; lit "alt"];
                          ue_message := lit "Alt text is too long" |} ] |} |}.

Definition zero_vars : Counters :=
  {| c_totalImages := 0; c_missingAltText := 0; c_updatedCount := 0;
     c_errorCount := 0 |}.

(** The start of a request on a given store. *)
Definition start (d : Db) : St :=
  {| db := d; tick := 0; log := []; vars := zero_vars |}.

(** As [calm_env], but the provider answers every attempt with the
    too-many-requests status. *)
Definition rate_limited_env : Env :=
  {| GEMINI_API_KEY := Some (lit "key");
     date_now := fun t => 1000 * Z.of_nat t;
     store_fault := fun _ => None;
     provider := fun _ => always_429;
     products_query := fun _ => inr [product_a];
     media_update := fun _ => inr {| userErrors := Some [] |} |}.

(** A store with the default settings row of the demo shop. *)
Definition settings_example : Db :=
  {| appSettings := <[SHOP := DEFAULT_SETTINGS]> ∅; scanHistory := ∅;
     processedImage := []; failedJob := ∅ |}.

(** ** The dead-letter queue: listings ([retry.server.ts]) *)

(** [orderBy: { createdAt: "asc" }] *)
Definition created_before (a b : FailedJob) : Prop :=
  fj_createdAt a <= fj_createdAt b.

#[global] Instance created_before_dec a b : Decision (created_before a b) :=
  Z_le_dec (fj_createdAt a) (fj_createdAt b).

(** [orderBy: { createdAt: "desc" }] *)
Definition created_after (a b : FailedJob) : Prop :=
  fj_createdAt b <= fj_createdAt a.

#[global] Instance created_after_dec a b : Decision (created_after a b) :=
  Z_le_dec (fj_createdAt b) (fj_createdAt a).

(** The rows of the [FailedJob] table. *)
Definition failedJob_rows (d : Db) : list FailedJob :=
  (map_to_list (failedJob d)).*2.

Definition is_pending (job : FailedJob) : bool :=
  match fj_status job with
  | Pending => true
  | _ => false
  end.

(** The [where] clause of [getPendingRetries]: the shop, the status
    [pending], and [nextRetryAt <= now], which no row without a
    [nextRetryAt] satisfies. *)
Definition due (now : time) (shop : ident) (job : FailedJob) : bool :=
  String.eqb (fj_shop job) shop
  && is_pending job
  && match fj_nextRetryAt job with
     | Some t => t <=? now
     | None => false
     end.

(** [getPendingRetries], at the clock reading [now]. *)
Definition getPendingRetries (now : time) (shop : ident) (d : Db)
    : list FailedJob :=
  merge_sort created_before (List.filter (due now shop) (failedJob_rows d)).

(** [getAllFailedJobs] *)
Definition getAllFailedJobs (shop : ident) (d : Db) : list FailedJob :=
  merge_sort created_after
    (List.filter (fun job => String.eqb (fj_shop job) shop) (failedJob_rows d)).

(** The [pendingRetries] figure of the dashboard loader:
    [failedJobs.filter(j => j.status === "pending").length]. *)
Definition pendingRetries (shop : ident) (d : Db) : Z :=
  Z.of_nat (length (List.filter is_pending (getAllFailedJobs shop d))).

(** ** Settings: the upsert ([settings.server.ts]) *)

(** [Partial<Settings>]: a field is given or left out. *)
Record SettingsPatch := {
  u_altTextStyle : option string;
  u_altTextLength : option string;
  u_customPrompt : option (option jsstring);
  u_batchSize : option Z;
  u_autoRetry : option bool;
  u_maxRetries : option Z;
}.

(** The row with the given fields of the patch written over it. *)
Definition patched (p : SettingsPatch) (row : Settings) : Settings :=
  {| altTextStyle := default (altTextStyle row) (u_altTextStyle p);
     altTextLength := default (altTextLength row) (u_altTextLength p);
     customPrompt := default (customPrompt row) (u_customPrompt p);
     batchSize := default (batchSize row) (u_batchSize p);
     autoRetry := default (autoRetry row) (u_autoRetry p);
     maxRetries := default (maxRetries row) (u_maxRetries p) |}.

Definition set_appSettings (rows : gmap ident Settings) (d : Db) : Db :=
  {| appSettings := rows;
     scanHistory := scanHistory d;
     processedImage := processedImage d;
     failedJob := failedJob d |}.

(** [updateSettings]: the upsert updates the row of the shop with the given
    fields, or creates it from the defaults and the given fields. *)
Definition updateSettings (shop : ident) (settings : SettingsPatch)
    : db_op Settings := fun d =>
  let row :=
    match appSettings d !! shop with
    | Some row => patched settings row
    | None => patched settings DEFAULT_SETTINGS
    end in
  inr (row, set_appSettings (<[shop := row]> (appSettings d)) d).

(** What holds of a row of the [FailedJob] table under its key. *)
Record job_consistent (id : ident) (job : FailedJob) : Prop := {
  job_key : fj_id job = id;
  job_maxRetries : fj_maxRetries job <> 0;
  job_retryCount : 0 <= fj_retryCount job;
  job_nextRetryAt : is_Some (fj_nextRetryAt job);
  job_pending :
    fj_status job = Pending ->
    fj_retryCount job = 0 \/ fj_retryCount job < fj_maxRetries job;
  job_permanent :
    fj_status job = FailedPermanent ->
    fj_maxRetries job <= fj_retryCount job;
}.

(** A patch that switches the length class and turns auto-retry off. *)
Definition patch_example : SettingsPatch :=
  {| u_altTextStyle := None; u_altTextLength := Some "short";
     u_customPrompt := None; u_batchSize := None;
     u_autoRetry := Some false; u_maxRetries := None |}.

(** ** The catalog paginator ([pagination.server.ts]) *)

Record PageInfo := {
  hasNextPage : bool;
  endCursor : option ident;
}.

(** The body of a products response as the paginator reads it: the nodes of
    [data.products.edges] and [data.products.pageInfo]. *)
Record ProductsPage := {
  page_products : list ProductNode;
  pageInfo : PageInfo;
}.

(** The platform client: what request number [n], with the variables
    [first] and [after], resolves with, or the value it rejects with (a
    body that lacks [data.products] makes the caller throw all the same). *)
Abbreviation Admin := (nat -> Z -> option ident -> result ProductsPage)
  (only parsing).

(** [fetchProductsPage], as request number [n]. *)
Definition fetchProductsPage (admin : Admin) (n : nat) (pageSize : option Z)
    (cursor : option ident) : result ProductsPage :=
  admin n (default 250 pageSize) cursor.

(** What a run of [fetchAllProducts] amounts to: its result, the calls of
    [onProgress] (the products of the page and the running total) and the
    number of requests it made. *)
Record FetchAll := {
  fetched : result (list ProductNode);
  progress : list (list ProductNode * Z);
  requests : nat;
}.

(** The loop [while (hasNextPage)] of [fetchAllProducts], entered with
    [hasNextPage] true.  The loop has no bound of its own: [fuel] bounds the
    number of pages, and [None] says the fuel did not suffice. *)
Fixpoint fetch_all_loop (fuel : nat) (admin : Admin) (pageSize : option Z)
    (onProgress : bool) (n : nat) (allProducts : list ProductNode)
    (cursor : option ident) (calls : list (list ProductNode * Z))
    : option FetchAll :=
  match fuel with
  | O => None
  | S fuel' =>
      match fetchProductsPage admin n pageSize cursor with
      | inl e => Some {| fetched := inl e; progress := calls; requests := S n |}
      | inr result =>
          let products := page_products result in
          let allProducts := allProducts ++ products in
          let calls :=
            if onProgress
            then calls ++ [(products, Z.of_nat (length allProducts))]
            else calls in
          if hasNextPage (pageInfo result)
          then fetch_all_loop fuel' admin pageSize onProgress (S n)
                              allProducts (endCursor (pageInfo result)) calls
          else Some {| fetched := inr allProducts; progress := calls;
                       requests := S n |}
      end
  end.

(** [fetchAllProducts]; [onProgress] tells whether the callback is given. *)
Definition fetchAllProducts (fuel : nat) (admin : Admin)
    (pageSize : option Z) (onProgress : bool) : option FetchAll :=
  fetch_all_loop fuel admin pageSize onProgress 0 [] None [].

(** What a consumer that drains [fetchProductsBatched] sees: the batches
    yielded, then the end of the sequence or a thrown value. *)
Record Batches := {
  yielded : list (list ProductNode);
  thrown : option js_error;
  batch_requests : nat;
}.

Fixpoint batched_loop (fuel : nat) (admin : Admin) (pageSize : option Z)
    (n : nat) (cursor : option ident) (seen : list (list ProductNode))
    : option Batches :=
  match fuel with
  | O => None
  | S fuel' =>
      match fetchProductsPage admin n pageSize cursor with
      | inl e => Some {| yielded := seen; thrown := Some e;
                         batch_requests := S n |}
      | inr result =>
          let products := page_products result in
          let seen := seen ++ [products] in
          if hasNextPage (pageInfo result)
          then batched_loop fuel' admin pageSize (S n)
                            (endCursor (pageInfo result)) seen
          else Some {| yielded := seen; thrown := None;
                       batch_requests := S n |}
      end
  end.

(** [fetchProductsBatched], drained. *)
Definition fetchProductsBatched (fuel : nat) (admin : Admin)
    (pageSize : option Z) : option Batches :=
  batched_loop fuel admin pageSize 0 None [].

(** [countProducts], as request number [n]. *)
Definition countProducts (admin : Admin) (n : nat) : result Z :=
  match fetchProductsPage admin n (Some 1) None with
  | inl e => inl e
  | inr result =>
      if hasNextPage (pageInfo result) then inr 250
      else inr (Z.of_nat (length (page_products result)))
  end.

(** The platform serves the pages [pages], one per request from request [n]
    and cursor [cursor] on, each but the last announcing a next page. *)
Fixpoint serves (admin : Admin) (pageSize : option Z) (n : nat)
    (cursor : option ident) (pages : list ProductsPage) : Prop :=
  match pages with
  | [] => False
  | page :: rest =>
      fetchProductsPage admin n pageSize cursor = inr page
      /\ match rest with
         | [] => hasNextPage (pageInfo page) = false
         | _ => hasNextPage (pageInfo page) = true
                /\ serves admin pageSize (S n) (endCursor (pageInfo page)) rest
         end
  end.

(** The platform serves the pages [pages], each announcing a next page, and
    rejects the request after them with [e]. *)
Fixpoint serves_then_rejects (admin : Admin) (pageSize : option Z) (n : nat)
    (cursor : option ident) (pages : list ProductsPage) (e : js_error)
    : Prop :=
  match pages with
  | [] => fetchProductsPage admin n pageSize cursor = inl e
  | page :: rest =>
      fetchProductsPage admin n pageSize cursor = inr page
      /\ hasNextPage (pageInfo page) = true
      /\ serves_then_rejects admin pageSize (S n) (endCursor (pageInfo page))
                             rest e
  end.

(** The calls of [onProgress] for the pages [pages] when [total] products
    were fetched before them. *)
Fixpoint progress_calls (total : nat) (pages : list ProductsPage)
    : list (list ProductNode * Z) :=
  match pages with
  | [] => []
  | page :: rest =>
      let total := (total + length (page_products page))%nat in
      (page_products page, Z.of_nat total) :: progress_calls total rest
  end.

(** All the products of the pages, in order. *)
Definition all_products (pages : list ProductsPage) : list ProductNode :=
  concat (List.map page_products pages).

(** A catalog of two pages behind the cursor [c1]. *)
Definition page_one : ProductsPage :=
  {| page_products := [product_a];
     pageInfo := {| hasNextPage := true; endCursor := Some "c1" |} |}.

Definition page_two : ProductsPage :=
  {| page_products := [product_b];
     pageInfo := {| hasNextPage := false; endCursor := Some "c2" |} |}.

Definition two_pages_admin (n : nat) (first : Z) (after : option ident)
    : js_error + ProductsPage :=
  match after with
  | None => inr page_one
  | Some _ => inr page_two
  end.

(** The same platform, out of service after the first page. *)
Definition failing_admin (n : nat) (first : Z) (after : option ident)
    : js_error + ProductsPage :=
  match after with
  | None => inr page_one
  | Some _ => inl (Error (lit "503 Service Unavailable"))
  end.

(** A platform that announces a next page for ever. *)
Definition endless_admin (n : nat) (first : Z) (after : option ident)
    : js_error + ProductsPage :=
  inr page_one.

(** ** The figures of the processing page ([app.test-products.tsx],
    [TestProducts]) *)

Definition has_image (m : MediaImage) : bool :=
  match m_image m with
  | Some _ => true
  | None => false
  end.

(** [!alt]: no value, or the empty string. *)
Definition falsy (alt : option jsstring) : bool :=
  match alt with
  | Some s => is_empty s
  | None => true
  end.

(** [m.node.image && (!m.node.alt || m.node.alt.trim() === empty)] *)
Definition lacks_alt_text (m : MediaImage) : bool :=
  has_image m
  && (falsy (m_alt m)
      || match m_alt m with
         | Some s => is_empty (trim s)
         | None => false
         end).

(** [missingCount]: the [reduce] over the products of the loader. *)
Definition missingCount (products : list ProductNode) : Z :=
  fold_left (fun count product =>
               count + Z.of_nat (length (List.filter lacks_alt_text
                                                      (p_media product))))
            products 0.

(** [totalImages] of the component. *)
Definition shownTotalImages (products : list ProductNode) : Z :=
  fold_left (fun count product =>
               count + Z.of_nat (length (List.filter has_image
                                                      (p_media product))))
            products 0.

(** [missingImages] of a row of the target list:
    [item.media.edges.filter(m => m.node.image && !m.node.alt).length]. *)
Definition missingImages (item : ProductNode) : Z :=
  Z.of_nat (length (List.filter (fun m => has_image m && falsy (m_alt m))
                                (p_media item))).

(** A product whose only image has a blank alt text. *)
Definition product_blank : ProductNode :=
  {| p_id := "gid://shopify/Product/3";
     p_title := lit "Blank";
     p_handle := "blank";
     p_tags := [];
     p_media := [ {| m_id := "gid://shopify/MediaImage/3";
                     m_image := Some "https://cdn.example/3.jpg";
                     m_alt := Some (lit "   ") |} ] |}.
(** * Properties *)

(** ** Strings *)

Lemma drop_while_head p s : head_is p (drop_while p s) = false.
Proof.
  induction s as [|c t IH]; simpl; [reflexivity|].
  destruct (p c) eqn:Hc; [exact IH|]. simpl. exact Hc.
Qed.

Lemma drop_while_id p s : head_is p s = false -> drop_while p s = s.
Proof.
  destruct s as [|c t]; simpl; [reflexivity|]. intros ->. reflexivity.
Qed.

Lemma drop_while_suffix p s : exists r, s = r ++ drop_while p s.
Proof.
  induction s as [|c t [r IH]]; simpl.
  - exists []. reflexivity.
  - destruct (p c).
    + exists (c :: r). simpl. congruence.
    + exists []. reflexivity.
Qed.

Lemma drop_while_end_cons p c t :
  drop_while_end p (c :: t) =
  if is_empty (drop_while_end p t) && p c then [] else c :: drop_while_end p t.
Proof.
  simpl. destruct (drop_while_end p t); simpl; [|reflexivity].
  destruct (p c); reflexivity.
Qed.

(** What [drop_while_end] removes is a run of code units satisfying [p]. *)
Lemma drop_while_end_split p s :
  exists r, s = drop_while_end p s ++ r /\ forallb p r = true.
Proof.
  induction s as [|c t (r & IH & Hr)].
  - exists []. split; reflexivity.
  - rewrite drop_while_end_cons.
    destruct (drop_while_end p t) as [|d t'] eqn:Ht; simpl.
    + destruct (p c) eqn:Hc.
      * exists (c :: r). simpl in IH. subst t. simpl. rewrite Hc, Hr. done.
      * exists r. simpl in IH. subst t. done.
    + exists r. split; [|exact Hr]. simpl in IH. congruence.
Qed.

Lemma drop_while_end_last p s : last_is p (drop_while_end p s) = false.
Proof.
  unfold last_is. induction s as [|c t IH]; [reflexivity|].
  rewrite drop_while_end_cons.
  destruct (drop_while_end p t) as [|d t'] eqn:Ht; simpl.
  - destruct (p c) eqn:Hc; simpl; [reflexivity|]. exact Hc.
  - exact IH.
Qed.

Lemma last_is_cons p c d t : last_is p (c :: d :: t) = last_is p (d :: t).
Proof. reflexivity. Qed.

Lemma drop_while_end_id p s : last_is p s = false -> drop_while_end p s = s.
Proof.
  induction s as [|c t IH]; [reflexivity|].
  intros H. rewrite drop_while_end_cons.
  destruct t as [|d t'].
  - simpl. unfold last_is in H. simpl in H. rewrite H. reflexivity.
  - rewrite last_is_cons in H. rewrite (IH H). reflexivity.
Qed.

Lemma drop_while_end_head p q s :
  head_is p s = false -> head_is p (drop_while_end q s) = false.
Proof.
  destruct s as [|c t]; [reflexivity|]. intros H.
  rewrite drop_while_end_cons.
  destruct (is_empty (drop_while_end q t) && q c); [reflexivity|exact H].
Qed.

Lemma trim_head s : head_is is_ws (trim s) = false.
Proof. apply drop_while_end_head, drop_while_head. Qed.

Lemma trim_last s : last_is is_ws (trim s) = false.
Proof. apply drop_while_end_last. Qed.

Lemma trim_id s :
  head_is is_ws s = false -> last_is is_ws s = false -> trim s = s.
Proof.
  intros Hh Hl. unfold trim. rewrite (drop_while_id _ _ Hh).
  apply drop_while_end_id, Hl.
Qed.

Lemma strip_quotes_id s :
  head_is is_quote s = false -> last_is is_quote s = false ->
  strip_quotes s = s.
Proof.
  intros Hh Hl. unfold strip_quotes. rewrite (drop_while_id _ _ Hh).
  apply drop_while_end_id, Hl.
Qed.

Lemma single_spaced_weaken b s :
  single_spaced_from b s = true -> single_spaced_from false s = true.
Proof.
  destruct s as [|c t]; simpl; [done|].
  destruct (is_ws c); [|done].
  rewrite !andb_true_iff. intros [[-> _] ->]. done.
Qed.

Lemma single_spaced_app_l b q r :
  single_spaced_from b (q ++ r) = true -> single_spaced_from b q = true.
Proof.
  revert b. induction q as [|c t IH]; intros b; simpl; [done|].
  destruct (is_ws c).
  - rewrite !andb_true_iff. intros [[-> ->] H]. rewrite (IH _ H). done.
  - apply IH.
Qed.

Lemma single_spaced_app_r b q r :
  single_spaced_from b (q ++ r) = true -> single_spaced_from false r = true.
Proof.
  revert b. induction q as [|c t IH]; intros b; simpl.
  - apply single_spaced_weaken.
  - destruct (is_ws c).
    + rewrite !andb_true_iff. intros [_ H]. exact (IH _ H).
    + apply IH.
Qed.

(** A single-spaced run of white space is at most one SPACE. *)
Lemma single_spaced_run b r :
  single_spaced_from b r = true -> forallb is_ws r = true ->
  (length r <= 1)%nat.
Proof.
  destruct r as [|c [|d r]]; simpl; [lia|lia|].
  rewrite !andb_true_iff. intros H [Hc [Hd _]]. rewrite Hc, Hd in H.
  rewrite !andb_true_iff in H. destruct H as [_ [[_ H] _]]. discriminate.
Qed.

Lemma collapse_ws_spaced b s :
  single_spaced_from b (collapse_ws_from b s) = true.
Proof.
  revert b. induction s as [|c t IH]; intros b; simpl; [done|].
  destruct (is_ws c) eqn:Hc.
  - destruct b; [apply IH|]. simpl. rewrite IH. done.
  - simpl. rewrite Hc. apply IH.
Qed.

Lemma collapse_ws_id b s :
  single_spaced_from b s = true -> collapse_ws_from b s = s.
Proof.
  revert b. induction s as [|c t IH]; intros b; simpl; [done|].
  destruct (is_ws c).
  - rewrite !andb_true_iff. intros [[Hc Hb] H].
    apply N.eqb_eq in Hc. destruct b; [done|]. rewrite (IH _ H). congruence.
  - intros H. rewrite (IH _ H). done.
Qed.

Lemma trim_spaced s : single_spaced s = true -> single_spaced (trim s) = true.
Proof.
  unfold single_spaced, trim. intros H.
  destruct (drop_while_suffix is_ws s) as [r1 H1].
  destruct (drop_while_end_split is_ws (drop_while is_ws s)) as (r2 & H2 & _).
  rewrite H1 in H. apply single_spaced_app_r in H.
  rewrite H2 in H. exact (single_spaced_app_l _ _ _ H).
Qed.

(** The caption before the length check is clean but for its length. *)
Lemma normalize_spaced text : single_spaced (normalize text) = true.
Proof. apply trim_spaced, collapse_ws_spaced. Qed.

Lemma normalize_head text : head_is is_ws (normalize text) = false.
Proof. apply trim_head. Qed.

Lemma normalize_last text : last_is is_ws (normalize text) = false.
Proof. apply trim_last. Qed.

Lemma normalize_id s :
  head_is is_quote s = false -> last_is is_quote s = false ->
  head_is is_ws s = false -> last_is is_ws s = false ->
  single_spaced s = true ->
  normalize s = s.
Proof.
  intros Hq1 Hq2 Hw1 Hw2 Hs. unfold normalize.
  rewrite (trim_id s Hw1 Hw2), (strip_quotes_id s Hq1 Hq2).
  unfold collapse_ws. rewrite (collapse_ws_id _ _ Hs).
  apply trim_id; assumption.
Qed.

Lemma getMaxLength_cases length :
  getMaxLength length = 60 \/ getMaxLength length = 100 \/
  getMaxLength length = 125.
Proof.
  unfold getMaxLength.
  repeat match goal with |- context [if ?b then _ else _] => destruct b end;
    auto.
Qed.

Lemma len_app s t : len (s ++ t) = len s + len t.
Proof. unfold len. rewrite length_app. lia. Qed.

Lemma head_is_take p k s :
  (0 < k)%nat -> head_is p (take k s) = head_is p s.
Proof. destruct k; [lia|]. destruct s; reflexivity. Qed.

Lemma last_is_snoc p s c : last_is p (s ++ [c]) = p c.
Proof. unfold last_is. rewrite last_snoc. reflexivity. Qed.

Lemma last_take_nth (k : nat) (s : list N) :
  (k < length s)%nat -> last (take (S k) s) = Some (List.nth k s 0%N).
Proof.
  revert s. induction k as [|k IH]; intros [|c t]; simpl; try lia.
  - intros _. destruct t; reflexivity.
  - intros H. destruct t as [|d t']; [simpl in H; lia|].
    specialize (IH (d :: t')). simpl in IH |- *. apply IH. simpl in H. lia.
Qed.

(** Trimming the first [k] code units of a clean string removes at most a
    trailing SPACE. *)
Lemma trim_take_clean (k : nat) (n : list N) :
  (0 < k)%nat -> (k <= length n)%nat ->
  head_is is_ws n = false -> single_spaced n = true ->
  exists r, take k n = trim (take k n) ++ r
            /\ forallb is_ws r = true /\ (length r <= 1)%nat
            /\ (is_ws (List.nth (k - 1) n 0%N) = false -> r = [])
            /\ (is_ws (List.nth (k - 1) n 0%N) = true -> length r = 1%nat).
Proof.
  intros Hk Hlen Hh Hs. unfold trim.
  rewrite (drop_while_id is_ws (take k n)) by (rewrite head_is_take; done).
  destruct (drop_while_end_split is_ws (take k n)) as (r & Hr & Hall).
  assert (Hsp : single_spaced_from false (take k n) = true).
  { rewrite <- (take_drop k n) in Hs. exact (single_spaced_app_l _ _ _ Hs). }
  assert (Hr1 : (length r <= 1)%nat).
  { rewrite Hr in Hsp. apply single_spaced_app_r in Hsp.
    exact (single_spaced_run _ _ Hsp Hall). }
  assert (Hlast : last_is is_ws (take k n) = is_ws (List.nth (k - 1) n 0%N)).
  { unfold last_is. destruct k as [|k]; [lia|].
    rewrite last_take_nth by lia. f_equal. f_equal. lia. }
  exists r. repeat split; try assumption.
  - intros Hc. rewrite <- Hlast in Hc.
    rewrite (drop_while_end_id _ _ Hc) in Hr.
    apply (f_equal length) in Hr. rewrite length_app in Hr.
    destruct r; [done|simpl in Hr; lia].
  - intros Hc. rewrite <- Hlast in Hc.
    destruct r as [|c r]; [|simpl in *; lia].
    rewrite app_nil_r in Hr. rewrite Hr in Hc.
    rewrite drop_while_end_last in Hc. discriminate.
Qed.

(** ** Caption sanitation *)

(** C9. Sanitation is the identity on an already clean caption: one within
    the ceiling, with no quote and no white space at either end, whose only
    white space is single SPACE characters between words. *)
Theorem sanitize_clean_caption (maxLength : Z) (s : jsstring) :
  clean_caption maxLength s -> sanitize maxLength s = s.
Proof.
  intros [Hlen Hq1 Hq2 Hw1 Hw2 Hs]. unfold sanitize.
  rewrite (normalize_id s Hq1 Hq2 Hw1 Hw2 Hs). unfold enforce_max.
  destruct (Z.ltb_spec maxLength (len s)); [lia|reflexivity].
Qed.

Lemma clean_example_clean : clean_caption (getMaxLength "short") clean_example.
Proof. split; vm_compute; congruence. Defined.

Lemma sanitize_clean_caption_witness :
  clean_caption (getMaxLength "short") clean_example /\
  sanitize (getMaxLength "short") clean_example = clean_example.
Proof.
  split; [exact clean_example_clean|].
  apply (sanitize_clean_caption _ _ clean_example_clean).
Defined.

(** C1, as stated, fails: with the ceiling 60 the caption [space_at_cut] is
    longer than the ceiling once normalized, yet its sanitized form has 59
    code units, not 60, and its first 57 code units are not the first 57 of
    the normalized input. *)
Lemma truncation_length_counterexample :
  let C := getMaxLength "short" in
  C < len (normalize space_at_cut)
  /\ len (sanitize C space_at_cut) <> C
  /\ take (Z.to_nat (C - 3)) (sanitize C space_at_cut)
     <> take (Z.to_nat (C - 3)) (normalize space_at_cut).
Proof. vm_compute. repeat split; congruence. Qed.

(** C1, amended. When the normalized caption is longer than the ceiling [C],
    the result is [kept ++ "..."] where [kept] is the first [C - 3] code
    units of the normalized caption, trimmed: a prefix of it that lacks at
    most one trailing SPACE.  So the result ends in the ellipsis and has [C]
    or [C - 1] code units; it has exactly [C], and starts with the first
    [C - 3] code units of the normalized caption, exactly when the code unit
    at index [C - 4] of the normalized caption is not white space. *)
Theorem truncation_amended (pref : string) (raw : jsstring) :
  let C := getMaxLength pref in
  let n := normalize raw in
  C < len n ->
  exists kept,
    sanitize C raw = kept ++ ELLIPSIS
    /\ kept = trim (slice0 (C - 3) n)
    /\ starts_with kept n
    /\ ends_with ELLIPSIS (sanitize C raw)
    /\ C - 1 <= len (sanitize C raw) <= C
    /\ (is_ws (char_at (C - 4) n) = false ->
        len (sanitize C raw) = C
        /\ take (Z.to_nat (C - 3)) (sanitize C raw) = take (Z.to_nat (C - 3)) n)
    /\ (is_ws (char_at (C - 4) n) = true -> len (sanitize C raw) = C - 1).
Proof.
  intros C n Hlen.
  assert (HC : 60 <= C <= 125)
    by (destruct (getMaxLength_cases pref) as [H|[H|H]]; unfold C; lia).
  unfold sanitize, enforce_max. fold n.
  destruct (Z.ltb_spec C (len n)) as [_|]; [|lia].
  unfold slice0. destruct (Z.leb_spec 0 (C - 3)) as [_|]; [|lia].
  set (k := Z.to_nat (C - 3)).
  unfold len in Hlen.
  destruct (trim_take_clean k n) as (r & Hr & Hall & Hr1 & Hnone & Hone);
    [lia|lia|apply normalize_head|apply normalize_spaced|].
  assert (Hidx : char_at (C - 4) n = List.nth (k - 1) n 0%N).
  { unfold char_at. destruct (Z.ltb_spec (C - 4) 0); [lia|].
    f_equal. lia. }
  rewrite Hidx.
  assert (Hk : length (take k n) = k) by (rewrite length_take; lia).
  assert (Hkept : (length (trim (take k n)) + length r = k)%nat).
  { rewrite <- length_app, <- Hr. exact Hk. }
  exists (trim (take k n)). split; [reflexivity|]. split; [reflexivity|].
  split.
  { exists (r ++ drop k n). rewrite app_assoc, <- Hr. symmetry.
    apply take_drop. }
  split; [eexists; reflexivity|].
  rewrite len_app. unfold len. change (length ELLIPSIS) with 3%nat.
  split; [lia|]. split.
  - intros Hc. specialize (Hnone Hc). subst r. rewrite app_nil_r in Hr.
    split; [simpl in Hkept; lia|].
    rewrite <- Hr. rewrite take_app_length'; [reflexivity|symmetry; exact Hk].
  - intros Hc. specialize (Hone Hc). lia.
Qed.

Lemma truncation_amended_witness :
  getMaxLength "short" < len (normalize long_caption) /\
  exists kept,
    sanitize (getMaxLength "short") long_caption = kept ++ ELLIPSIS.
Proof.
  assert (H : getMaxLength "short" < len (normalize long_caption))
    by (vm_compute; reflexivity).
  split; [exact H|].
  destruct (truncation_amended "short" long_caption H) as (kept & Hk & _).
  exists kept. exact Hk.
Defined.

(** ** Backoff policy *)

Lemma overflow_above_ceiling : 300000 < JsNumber.OVERFLOW.
Proof. vm_compute. reflexivity. Qed.

(** The closed form: on doubles the computation never leaves the exactly
    representable values before the clamp. *)
Lemma calculateBackoffDelay_closed_form (n : Z) :
  0 <= n -> calculateBackoffDelay n = Z.min (2000 * 2 ^ n) 300000.
Proof.
  intros Hn. pose proof overflow_above_ceiling as Hov.
  assert (Hpow : 0 < 2 ^ n) by (apply Z.pow_pos_nonneg; lia).
  unfold calculateBackoffDelay, JsNumber.Math_pow2, JsNumber.mul,
    JsNumber.Math_min.
  destruct (Z.ltb_spec (2 ^ n) JsNumber.OVERFLOW).
  - destruct (Z.ltb_spec (2000 * 2 ^ n) JsNumber.OVERFLOW); lia.
  - lia.
Qed.

(** C4. The backoff policy is total on the non-negative integers, equals
    [min(2000 * 2^n, 300000)] there, is monotonically non-decreasing, and
    takes the values 2000, 256000 and 300000 at 0, 7 and 8. *)
Theorem backoff_policy :
  (forall n, 0 <= n ->
     calculateBackoffDelay n = Z.min (2000 * 2 ^ n) 300000)
  /\ (forall n m, 0 <= n -> n <= m ->
        calculateBackoffDelay n <= calculateBackoffDelay m)
  /\ calculateBackoffDelay 0 = 2000
  /\ calculateBackoffDelay 7 = 256000
  /\ calculateBackoffDelay 8 = 300000.
Proof.
  split; [exact calculateBackoffDelay_closed_form|]. split.
  - intros n m Hn Hnm.
    rewrite !calculateBackoffDelay_closed_form by lia.
    assert (2 ^ n <= 2 ^ m) by (apply Z.pow_le_mono_r; lia). lia.
  - repeat split; vm_compute; reflexivity.
Qed.

Lemma backoff_policy_witness :
  calculateBackoffDelay 3 = Z.min (2000 * 2 ^ 3) 300000
  /\ calculateBackoffDelay 3 <= calculateBackoffDelay 9.
Proof.
  destruct backoff_policy as (Hform & Hmono & _).
  split; [apply (Hform 3); lia|apply (Hmono 3 9); lia].
Defined.

(** ** Dead-letter queue *)

Lemma generated_id_fresh {V} (table : gmap string V) :
  table !! generated_id table = None.
Proof. apply not_elem_of_dom, is_fresh. Qed.

(** C10. The job [addFailedJob] persists is a new row with [retryCount] 0,
    status [pending] and [nextRetryAt] one minute after the call; its
    [maxRetries] is the value of the caller when that is not 0, and 3 when
    the caller gives 0 or nothing, so it is never 0. *)
Theorem addFailedJob_persists (now : time) (data : FailedJobData) (d : Db) :
  exists job d',
    addFailedJob now data d = inr (job, d')
    /\ failedJob d !! fj_id job = None
    /\ failedJob d' !! fj_id job = Some job
    /\ fj_retryCount job = 0
    /\ fj_status job = Pending
    /\ fj_nextRetryAt job = Some (now + 60000)
    /\ (forall m, d_maxRetries data = Some m -> m <> 0 -> fj_maxRetries job = m)
    /\ (d_maxRetries data = Some 0 -> fj_maxRetries job = 3)
    /\ (d_maxRetries data = None -> fj_maxRetries job = 3)
    /\ fj_maxRetries job <> 0.
Proof.
  eexists _, _. split; [reflexivity|]. cbn.
  split; [apply generated_id_fresh|].
  split; [apply lookup_insert_eq|].
  repeat split.
  - intros m -> Hm. simpl. destruct (Z.eqb_spec m 0); [done|reflexivity].
  - intros ->. reflexivity.
  - intros ->. reflexivity.
  - unfold or_default. destruct (d_maxRetries data) as [m|]; [|lia].
    destruct (Z.eqb_spec m 0); lia.
Qed.

(** [scheduleRetry] on a job that is in the store, for a delay that gives a
    valid date. *)
Lemma scheduleRetry_found (now stamp : time) (jobId : ident)
    (delayMs : option Z) (d : Db) (job : FailedJob) :
  failedJob d !! jobId = Some job ->
  fj_maxRetries job <= fj_retryCount job + 1
  \/ valid_time (now + match delayMs with Some ms => ms | None => 120000 end)
     = true ->
  exists job',
    scheduleRetry now stamp jobId delayMs d =
      inr (job', set_failedJob (<[jobId := job']> (failedJob d)) d)
    /\ fj_retryCount job' = fj_retryCount job + 1
    /\ fj_maxRetries job' = fj_maxRetries job
    /\ (fj_status job' = FailedPermanent <->
        fj_maxRetries job <= fj_retryCount job + 1)
    /\ (fj_retryCount job + 1 < fj_maxRetries job ->
        fj_status job' = Pending
        /\ fj_nextRetryAt job' =
             Some (now + match delayMs with Some ms => ms | None => 120000 end)).
Proof.
  intros Hjob Hok. unfold scheduleRetry, new_Date. rewrite Hjob.
  destruct (Z.leb_spec (fj_maxRetries job) (fj_retryCount job + 1)).
  - eexists. split; [reflexivity|]. cbn. repeat split; try done; lia.
  - destruct Hok as [Hmax|Hvalid]; [lia|]. rewrite Hvalid.
    eexists. split; [reflexivity|]. cbn. repeat split; try done; lia.
Qed.

(** What a call of [scheduleRetry] that resolves has done. *)
Lemma scheduleRetry_resolved (now stamp : time) (jobId : ident)
    (delayMs : option Z) (d d' : Db) (job job' : FailedJob) :
  failedJob d !! jobId = Some job ->
  scheduleRetry now stamp jobId delayMs d = inr (job', d') ->
  d' = set_failedJob (<[jobId := job']> (failedJob d)) d
  /\ fj_retryCount job' = fj_retryCount job + 1
  /\ (fj_status job' = FailedPermanent <->
      fj_maxRetries job <= fj_retryCount job + 1)
  /\ (fj_status job' = Pending <->
      fj_retryCount job + 1 < fj_maxRetries job)
  /\ (fj_status job' = Pending ->
      fj_nextRetryAt job' =
        Some (now + match delayMs with Some ms => ms | None => 120000 end)).
Proof.
  intros Hjob. unfold scheduleRetry, new_Date. rewrite Hjob.
  destruct (Z.leb_spec (fj_maxRetries job) (fj_retryCount job + 1)).
  - intros [= <- <-]. cbn. repeat split; try done; lia.
  - destruct (valid_time _); [|discriminate].
    intros [= <- <-]. cbn. repeat split; try done; lia.
Qed.

(** C3. [scheduleRetry] on a job in the store adds one to [retryCount]; the
    job becomes [failed_permanent] exactly when the new count has reached
    [maxRetries], and never before; otherwise it goes back to [pending] with
    [nextRetryAt] the clock reading plus the delay (120000 ms when none is
    given), provided that sum is a time a [Date] can hold; when it is not,
    the call rejects and the store keeps the job as it was.  On an id that
    is not in the store the call throws the not-found error. *)
Theorem scheduleRetry_reschedules (now stamp : time) (jobId : ident)
    (delayMs : option Z) (d : Db) :
  let delay := match delayMs with Some ms => ms | None => 120000 end in
  (forall job, failedJob d !! jobId = Some job ->
     (fj_maxRetries job <= fj_retryCount job + 1 ->
      exists job',
        scheduleRetry now stamp jobId delayMs d =
          inr (job', set_failedJob (<[jobId := job']> (failedJob d)) d)
        /\ fj_retryCount job' = fj_retryCount job + 1
        /\ fj_maxRetries job' = fj_maxRetries job
        /\ fj_status job' = FailedPermanent)
     /\ (fj_retryCount job + 1 < fj_maxRetries job ->
         valid_time (now + delay) = true ->
         exists job',
           scheduleRetry now stamp jobId delayMs d =
             inr (job', set_failedJob (<[jobId := job']> (failedJob d)) d)
           /\ fj_retryCount job' = fj_retryCount job + 1
           /\ fj_maxRetries job' = fj_maxRetries job
           /\ fj_status job' = Pending
           /\ fj_nextRetryAt job' = Some (now + delay))
     /\ (fj_retryCount job + 1 < fj_maxRetries job ->
         valid_time (now + delay) = false ->
         exists e, scheduleRetry now stamp jobId delayMs d = inl e)
     /\ (forall job' d',
           scheduleRetry now stamp jobId delayMs d = inr (job', d') ->
           fj_retryCount job' = fj_retryCount job + 1
           /\ (fj_status job' = FailedPermanent <->
               fj_maxRetries job <= fj_retryCount job + 1)
           /\ (fj_status job' = Pending <->
               fj_retryCount job + 1 < fj_maxRetries job)))
  /\ (failedJob d !! jobId = None ->
      scheduleRetry now stamp jobId delayMs d = inl (Error (lit "Job not found"))).
Proof.
  intros delay. split.
  - intros job Hjob. split; [|split; [|split]].
    + intros Hmax.
      destruct (scheduleRetry_found now stamp jobId delayMs d job Hjob)
        as (job' & Hrun & Hcount & Hkeep & Hperm & _); [left; exact Hmax|].
      exists job'. repeat split; try assumption. apply Hperm, Hmax.
    + intros Hleft Hvalid.
      destruct (scheduleRetry_found now stamp jobId delayMs d job Hjob)
        as (job' & Hrun & Hcount & Hkeep & _ & Hpend); [right; exact Hvalid|].
      destruct (Hpend Hleft) as [Hst Hnext].
      exists job'. repeat split; assumption.
    + intros Hleft Hinvalid. unfold scheduleRetry, new_Date. rewrite Hjob.
      destruct (Z.leb_spec (fj_maxRetries job) (fj_retryCount job + 1));
        [lia|].
      fold delay. rewrite Hinvalid. eauto.
    + intros job' d' Hrun.
      destruct (scheduleRetry_resolved _ _ _ _ _ _ _ _ Hjob Hrun)
        as (_ & Hcount & Hperm & Hpend & _).
      repeat split; try assumption; try apply Hperm; apply Hpend.
  - intros Hnone. unfold scheduleRetry. rewrite Hnone. reflexivity.
Qed.

Lemma addFailedJob_persists_witness :
  exists job d',
    addFailedJob 1000 job_data_example empty_db = inr (job, d')
    /\ fj_maxRetries job = 3.
Proof.
  destruct (addFailedJob_persists 1000 job_data_example empty_db)
    as (job & d' & Hrun & _ & _ & _ & _ & _ & _ & Hzero & _).
  exists job, d'. split; [exact Hrun|]. apply Hzero. reflexivity.
Defined.

Lemma scheduleRetry_reschedules_witness :
  (exists job',
     scheduleRetry 1000 1001 "job-1" None queue_example =
       inr (job', set_failedJob (<["job-1" := job']> (failedJob queue_example))
                                queue_example)
     /\ fj_retryCount job' = 1
     /\ fj_status job' = Pending
     /\ fj_nextRetryAt job' = Some 121000)
  /\ (exists e,
        scheduleRetry 1000 1001 "job-1" (Some (10 ^ 18)) queue_example = inl e)
  /\ scheduleRetry 1000 1001 "job-2" None queue_example =
       inl (Error (lit "Job not found")).
Proof.
  destruct (scheduleRetry_reschedules 1000 1001 "job-1" None queue_example)
    as [Hfound _].
  destruct (scheduleRetry_reschedules 1000 1001 "job-1" (Some (10 ^ 18))
              queue_example) as [Hlate _].
  destruct (scheduleRetry_reschedules 1000 1001 "job-2" None queue_example)
    as [_ Hmissing].
  split; [|split].
  - destruct (Hfound job_example) as (_ & Hpending & _);
      [apply lookup_insert_eq|].
    destruct Hpending as (job' & Hrun & Hcount & _ & Hst & Hnext);
      [simpl; lia|reflexivity|].
    exists job'. repeat split; assumption.
  - destruct (Hlate job_example) as (_ & _ & Hreject & _);
      [apply lookup_insert_eq|].
    apply Hreject; [simpl; lia|reflexivity].
  - apply Hmissing. vm_compute. reflexivity.
Defined.

(** Dead-letter termination: after [n >= 1] calls of [scheduleRetry] in a
    row, at a clock reading from which the default delay gives a valid
    date, the job has [n] more retries counted, and is [failed_permanent]
    exactly when that count has reached [maxRetries]. *)
Lemma dead_letter_termination (n : nat) (now : time) (jobId : ident) :
  valid_time (now + 120000) = true ->
  forall (d : Db) (job : FailedJob),
  failedJob d !! jobId = Some job -> (0 < n)%nat ->
  exists d' job',
    reschedule_times n now jobId d = inr d'
    /\ failedJob d' !! jobId = Some job'
    /\ fj_retryCount job' = fj_retryCount job + Z.of_nat n
    /\ fj_maxRetries job' = fj_maxRetries job
    /\ (fj_status job' = FailedPermanent <->
        fj_maxRetries job <= fj_retryCount job + Z.of_nat n).
Proof.
  intros Hvalid. induction n as [|n IH]; intros d job Hjob Hn; [lia|].
  destruct (scheduleRetry_found now now jobId None d job Hjob)
    as (job1 & Hrun & Hcount & Hmax & Hperm & _); [right; exact Hvalid|].
  simpl. rewrite Hrun.
  set (d1 := set_failedJob (<[jobId := job1]> (failedJob d)) d).
  assert (Hjob1 : failedJob d1 !! jobId = Some job1) by apply lookup_insert_eq.
  destruct n as [|n'].
  - exists d1, job1. simpl. repeat split; try assumption; try lia;
      destruct Hperm; auto.
  - destruct (IH d1 job1 Hjob1) as (d' & job' & Hrun' & Hjob' & Hc' & Hm' & Hp');
      [lia|].
    exists d', job'. split; [exact Hrun'|]. split; [exact Hjob'|].
    split; [lia|]. split; [congruence|].
    rewrite Hp', Hmax, Hcount. lia.
Qed.

(** A job enqueued with [maxRetries = 3] is permanent after the third
    reschedule and not after the second. *)
Example three_reschedules :
  (exists d job, reschedule_times 3 1000 "job-1" queue_example = inr d
     /\ failedJob d !! "job-1" = Some job
     /\ fj_status job = FailedPermanent /\ fj_retryCount job = 3)
  /\ (exists d job, reschedule_times 2 1000 "job-1" queue_example = inr d
     /\ failedJob d !! "job-1" = Some job
     /\ fj_status job = Pending /\ fj_retryCount job = 2).
Proof.
  split; eexists _, _; (split; [reflexivity|]);
    (split; [vm_compute; reflexivity|]); split; reflexivity.
Qed.

(** ** Scan history *)

(** Unfolds a resolved store operation into the row and store it made. *)
Ltac invert_op H :=
  repeat match type of H with
         | context [match ?x with _ => _ end] => destruct x eqn:?
         end;
  try discriminate; injection H as <- <-.

(** Operations other than the two on [ScanHistory] leave that table alone. *)
Lemma store_step_scans d d' :
  store_step d d' ->
  scanHistory d' = scanHistory d
  \/ (exists now shop forceAll scan,
        createScanHistory now shop forceAll d = inr (scan, d'))
  \/ (exists now scanId stats scan,
        completeScanHistory now scanId stats d = inr (scan, d')).
Proof.
  destruct 1 as [shop d s d' H|now data d job d' H|now jobId d job d' H
                |now stamp jobId delayMs d job d' H|jobId d job d' H
                |now shop forceAll d scan d' H|now scanId stats d scan d' H
                |now data d row d' H].
  - left. unfold getSettings in H. invert_op H; reflexivity.
  - left. unfold addFailedJob in H. invert_op H. reflexivity.
  - left. unfold markRetrying in H. invert_op H. reflexivity.
  - left. unfold scheduleRetry in H. invert_op H; reflexivity.
  - left. unfold removeFailedJob in H. invert_op H. reflexivity.
  - right. left. eauto.
  - right. right. eauto.
  - left. unfold recordImageProcessing in H. invert_op H. reflexivity.
Qed.

Lemma createScanHistory_consistent now shop forceAll d scan d' :
  createScanHistory now shop forceAll d = inr (scan, d') ->
  (forall id s, scanHistory d !! id = Some s -> scan_consistent s) ->
  forall id s, scanHistory d' !! id = Some s -> scan_consistent s.
Proof.
  intros H Hinv id s. unfold createScanHistory in H. injection H as <- <-.
  cbn. rewrite lookup_insert. case_decide.
  - intros [= <-]. unfold scan_consistent, scan_terminal. cbn.
    split; [intros [? [=]]|intros [[=]|[=]]].
  - apply Hinv.
Qed.

Lemma completeScanHistory_consistent now scanId stats d scan d' :
  completeScanHistory now scanId stats d = inr (scan, d') ->
  (forall id s, scanHistory d !! id = Some s -> scan_consistent s) ->
  forall id s, scanHistory d' !! id = Some s -> scan_consistent s.
Proof.
  intros H Hinv id s. unfold completeScanHistory in H.
  destruct (scanHistory d !! scanId); [|discriminate]. injection H as <- <-.
  cbn. rewrite lookup_insert. case_decide.
  - intros [= <-]. unfold scan_consistent, scan_terminal. cbn.
    split; [intros _|intros _; eauto].
    destruct (0 <? imagesFailed stats); auto.
  - apply Hinv.
Qed.

(** C5. [completeScanHistory] on a scan in the store sets the status to
    [completed_with_errors] exactly when [imagesFailed > 0], to [completed]
    otherwise, and stamps the completion time; [createScanHistory] makes a
    [running] scan without completion time; hence in every store the
    operations can build, a scan has a completion time exactly when its
    status is [completed] or [completed_with_errors]. *)
Theorem scan_status_derivation :
  (forall now scanId stats d scan,
     scanHistory d !! scanId = Some scan ->
     exists scan',
       completeScanHistory now scanId stats d =
         inr (scan', set_scanHistory (<[scanId := scan']> (scanHistory d)) d)
       /\ (sh_status scan' = CompletedWithErrors <-> 0 < imagesFailed stats)
       /\ (sh_status scan' = Completed <-> imagesFailed stats <= 0)
       /\ sh_completedAt scan' = Some now
       /\ sh_imagesFailed scan' = imagesFailed stats)
  /\ (forall now shop forceAll d,
        exists scan d',
          createScanHistory now shop forceAll d = inr (scan, d')
          /\ scanHistory d !! sh_id scan = None
          /\ scanHistory d' !! sh_id scan = Some scan
          /\ sh_status scan = Running
          /\ sh_completedAt scan = None)
  /\ (forall d, reachable d ->
        forall id scan, scanHistory d !! id = Some scan ->
          (is_Some (sh_completedAt scan) <->
           sh_status scan = Completed \/ sh_status scan = CompletedWithErrors)).
Proof.
  split; [|split].
  - intros now scanId stats d scan Hscan. unfold completeScanHistory.
    rewrite Hscan. eexists. split; [reflexivity|]. cbn.
    destruct (Z.ltb_spec 0 (imagesFailed stats)); repeat split; try done; lia.
  - intros now shop forceAll d. eexists _, _. split; [reflexivity|]. cbn.
    split; [apply generated_id_fresh|]. split; [apply lookup_insert_eq|done].
  - intros d Hreach. unfold reachable in Hreach.
    change (forall id scan, scanHistory d !! id = Some scan ->
                            scan_consistent scan).
    apply (rtc_ind_r (R := store_step) (fun d => forall id scan,
                          scanHistory d !! id = Some scan ->
                          scan_consistent scan) empty_db);
      [|clear d Hreach|exact Hreach].
    + intros id scan. cbn. rewrite lookup_empty. discriminate.
    + intros d d' _ Hstep IH.
      destruct (store_step_scans d d' Hstep)
        as [Heq|[(now & shop & forceAll & scan & H)|(now & scanId & stats & scan & H)]].
      * rewrite Heq. exact IH.
      * exact (createScanHistory_consistent _ _ _ _ _ _ H IH).
      * exact (completeScanHistory_consistent _ _ _ _ _ _ H IH).
Qed.

Lemma scan_started_created :
  createScanHistory 0 "demo.myshopify.com" (Some false) empty_db =
  inr (scan_example, scan_started).
Proof. vm_compute. reflexivity. Defined.

Lemma scan_status_derivation_witness :
  (exists scan',
     completeScanHistory 5000 "0" stats_example scan_started =
       inr (scan', set_scanHistory (<["0" := scan']> (scanHistory scan_started))
                                   scan_started)
     /\ sh_status scan' = CompletedWithErrors
     /\ sh_completedAt scan' = Some 5000)
  /\ (is_Some (sh_completedAt scan_example) <->
      sh_status scan_example = Completed
      \/ sh_status scan_example = CompletedWithErrors).
Proof.
  destruct scan_status_derivation as (Hcomplete & _ & Hinv). split.
  - destruct (Hcomplete 5000 "0" stats_example scan_started scan_example)
      as (scan' & Hrun & Herr & _ & Hat & _); [apply lookup_insert_eq|].
    exists scan'. split; [exact Hrun|]. split; [|exact Hat].
    apply Herr. simpl. lia.
  - apply (Hinv scan_started) with (id := "0").
    + eapply rtc_once, step_createScanHistory, scan_started_created.
    + apply lookup_insert_eq.
Defined.

(** ** The retry loop of the caption generator *)

Lemma attempts_made_segments R outcome (l : list Z) :
  attempts_made (flat_map (segment R outcome) l) = length l.
Proof.
  unfold attempts_made. induction l as [|a l IH]; [reflexivity|].
  simpl. f_equal. rewrite List.filter_app, length_app, IH.
  destruct (outcome a); [reflexivity|].
  destruct (a <? R - 1); reflexivity.
Qed.

Lemma attempt_numbers_shift (a : Z) (n : nat) :
  List.map (fun i => a + Z.of_nat i) (seq 0 (S n)) =
  a :: List.map (fun i => (a + 1) + Z.of_nat i) (seq 0 n).
Proof.
  simpl. f_equal; [lia|]. rewrite <- seq_shift, List.map_map.
  apply List.map_ext. intros i. lia.
Qed.

(** From any point of the loop on, the events are those of the attempts
    [attempt], [attempt + 1], ... of some number [n], none beyond the last
    allowed one. *)
Lemma retry_loop_trace maxLength R outcome attempt lastError :
  exists n : nat,
    attempt + Z.of_nat n <= Z.max attempt R
    /\ (retry_loop maxLength R outcome attempt lastError).1 =
       flat_map (segment R outcome)
                (List.map (fun i => attempt + Z.of_nat i) (seq 0 n)).
Proof.
  funelim (retry_loop maxLength R outcome attempt lastError).
  - exists 0%nat. split; [lia|reflexivity].
  - exists 1%nat. split; [lia|]. simpl. unfold segment.
    replace (attempt + Z.of_nat 0) with attempt by lia.
    rewrite Heq. reflexivity.
  - destruct H as (n & Hn & Htr). exists (S n). split; [lia|].
    rewrite attempt_numbers_shift. simpl flat_map. rewrite <- Htr.
    unfold segment, expected_wait. rewrite Heq.
    destruct (is_rate_limit error), (attempt <? R - 1); reflexivity.
Qed.

(** C7. A call with [R] allowed attempts makes at most [R] attempts, and
    its events are, attempt after attempt from 0: the attempt, then, if it
    failed and was not the last allowed one, a wait of [delay(attempt)] of
    the backoff policy for a rate-limiting failure and of
    [1000 * (attempt + 1)] ms for any other; nothing follows the last
    allowed attempt. *)
Theorem retry_schedule (maxLength R : Z) (outcome : Z -> attempt_outcome) :
  let events := (run_attempts maxLength R outcome).1 in
  exists n : nat,
    Z.of_nat n <= Z.max 0 R
    /\ attempts_made events = n
    /\ events = flat_map (segment R outcome) (List.map Z.of_nat (seq 0 n))
    /\ (forall e, outcome (R - 1) = Rejected e ->
          segment R outcome (R - 1) = [Attempt (R - 1)])
    /\ (forall i e, outcome i = Rejected e -> i < R - 1 ->
          segment R outcome i =
            [Attempt i;
             Wait (if is_rate_limit e then calculateBackoffDelay i
                   else 1000 * (i + 1))]).
Proof.
  intros events.
  destruct (retry_loop_trace maxLength R outcome 0 None) as (n & Hn & Htr).
  assert (Hev : events = flat_map (segment R outcome)
                                  (List.map Z.of_nat (seq 0 n))).
  { unfold events, run_attempts. simpl. rewrite Htr. f_equal. }
  exists n. split; [lia|]. split.
  { rewrite Hev, attempts_made_segments, length_map, length_seq. reflexivity. }
  split; [exact Hev|]. split.
  - intros e He. unfold segment. rewrite He.
    destruct (Z.ltb_spec (R - 1) (R - 1)); [lia|reflexivity].
  - intros i e He Hi. unfold segment, expected_wait. rewrite He.
    destruct (Z.ltb_spec i (R - 1)); [reflexivity|lia].
Qed.

Lemma retry_schedule_witness :
  (run_attempts 100 3 always_429).1 =
    [Attempt 0; Wait 2000; Attempt 1; Wait 4000; Attempt 2]
  /\ segment 3 always_429 2 = [Attempt 2]
  /\ segment 3 always_429 1 = [Attempt 1; Wait 4000].
Proof.
  destruct (retry_schedule 100 3 always_429) as (n & Hn & Hmade & _ & Hlast & Hwait).
  split; [vm_compute; reflexivity|]. split.
  - apply (Hlast rate_limit_by_status). reflexivity.
  - apply (Hwait 1 rate_limit_by_status); [reflexivity|lia].
Defined.

(** When every allowed attempt fails, the loop falls through with the error
    of the last one. *)
Lemma retry_loop_exhausted maxLength R outcome attempt lastError :
  (forall i, attempt <= i < R -> exists e, outcome i = Rejected e) ->
  (retry_loop maxLength R outcome attempt lastError).2 =
  Fallthrough (if attempt <? R
               then match outcome (R - 1) with
                    | Rejected e => Some e
                    | Resolved _ => None
                    end
               else lastError).
Proof.
  funelim (retry_loop maxLength R outcome attempt lastError); intros Hall.
  - destruct (Z.ltb_spec attempt R); [lia|reflexivity].
  - destruct (Hall attempt) as [e He]; [lia|]. congruence.
  - assert (Hrec : (retry_loop maxLength R outcome (attempt + 1) (Some error)).2
                   = Fallthrough (if attempt + 1 <? R
                                  then match outcome (R - 1) with
                                       | Rejected e => Some e
                                       | Resolved _ => None
                                       end
                                  else Some error)).
    { apply H. intros i Hi. apply Hall. lia. }
    assert (Hgoal : forall evs,
               (emit evs (retry_loop maxLength R outcome (attempt + 1)
                                     (Some error))).2
               = Fallthrough (if attempt <? R
                              then match outcome (R - 1) with
                                   | Rejected e => Some e
                                   | Resolved _ => None
                                   end
                              else lastError)).
    { intros evs. unfold emit. simpl. rewrite Hrec.
      destruct (Z.ltb_spec attempt R); [|lia].
      destruct (Z.ltb_spec (attempt + 1) R); [reflexivity|].
      replace (R - 1) with attempt by lia. rewrite Heq. reflexivity. }
    destruct (is_rate_limit error), (attempt <? R - 1); apply Hgoal.
Qed.

(** What the generator throws when all of its [R >= 1] attempts fail: the
    rate-limit error exactly when the last failure carries the status 429,
    whatever its message says. *)
Lemma run_attempts_exhausted maxLength R outcome e :
  1 <= R ->
  (forall i, 0 <= i < R -> exists e', outcome i = Rejected e') ->
  outcome (R - 1) = Rejected e ->
  (run_attempts maxLength R outcome).2 =
  inl (if match e_status e with Some s => s =? 429 | None => false end
       then Error (lit "Rate limit exceeded - retry later")
       else Error (lit "Failed to generate alt-text: " ++
                   match e_message e with
                   | [] => lit "Unknown error"
                   | m => m
                   end)).
Proof.
  intros HR Hall Hlast. unfold run_attempts. cbn [snd].
  rewrite retry_loop_exhausted by exact Hall.
  destruct (Z.ltb_spec 0 R); [|lia]. rewrite Hlast. unfold after_loop.
  destruct (match e_status e with Some s => s =? 429 | None => false end);
    [reflexivity|]. destruct (e_message e); reflexivity.
Qed.

(** C2 fails on the code.  Three attempts meet a failure whose message
    matches the rate-limit pattern and whose status is not 429: the loop
    treats each of them as rate limiting (it waits by the backoff policy),
    and yet the error thrown in the end is the generic one, not the
    rate-limit error. *)
Theorem exhausted_rate_limit_by_message :
  is_rate_limit rate_limit_by_message = true
  /\ (run_attempts 100 3 always_rate_limit_message).1 =
       [Attempt 0; Wait (calculateBackoffDelay 0);
        Attempt 1; Wait (calculateBackoffDelay 1); Attempt 2]
  /\ (run_attempts 100 3 always_rate_limit_message).2 =
       inl (Error (lit
         "Failed to generate alt-text: Rate limit reached for requests"))
  /\ (run_attempts 100 3 always_rate_limit_message).2 <>
       inl (Error (lit "Rate limit exceeded - retry later")).
Proof.
  split; [vm_compute; reflexivity|]. split; [vm_compute; reflexivity|].
  split; [vm_compute; reflexivity|]. vm_compute. discriminate.
Qed.

(** ** The scan orchestrator *)

(** The caption generator reads and, at most, creates the settings row of
    the shop. *)
Lemma generateAltText_frame E imageUrl productTitle productTags shop R st :
  same_tables st (generateAltText E imageUrl productTitle productTags shop R st).2.
Proof.
  unfold same_tables, generateAltText.
  destruct (GEMINI_API_KEY E) as [[|k key]|]; [done| |done].
  unfold mbind, M_bind, await_db, await_env, trace, getSettings, throw.
  destruct (store_fault E (tick st)); [done|].
  destruct (appSettings (db st) !! shop); cbn;
    destruct (after_loop _); done.
Qed.
Section Attempt.

Variable E : Env.
Variables (settings : Settings) (scanId shop : ident) (product : ProductNode)
          (mediaId imageUrl : ident) (currentAltText : option jsstring).

Lemma user_errors_branch st newAltText st1 r :
  generateAltText E imageUrl (p_title product) (p_tags product) shop
                  (Some (maxRetries settings)) st = (inr newAltText, st1) ->
  is_empty newAltText = false ->
  media_update E (tick st1) = inr r ->
  has_user_errors r = true ->
  process_attempt E settings scanId shop product mediaId imageUrl
                  currentAltText st =
  (inr tt, {| db := db st1; tick := S (tick st1);
              log := log st1 ++ [Wait 2000];
              vars := error_counted (vars st1) |}).
Proof.
  intros Hgen Hne Hupd Herr.
  unfold process_attempt, try_catch, mbind, M_bind. rewrite Hgen, Hne.
  unfold await_env. rewrite Hupd, Herr. reflexivity.
Qed.

Lemma failure_paths_record st st' :
  process_attempt E settings scanId shop product mediaId imageUrl
                  currentAltText st = (inr tt, st') ->
  c_errorCount (vars st) < c_errorCount (vars st') ->
  (exists rows,
     processedImage (db st') = processedImage (db st) ++ rows
     /\ rows <> []
     /\ Forall (failure_record scanId mediaId) rows)
  \/ (exists newAltText st1 r,
        generateAltText E imageUrl (p_title product) (p_tags product) shop
                        (Some (maxRetries settings)) st = (inr newAltText, st1)
        /\ is_empty newAltText = false
        /\ media_update E (tick st1) = inr r
        /\ has_user_errors r = true).
Proof.
  unfold process_attempt, try_catch, mbind, M_bind.
  pose proof (generateAltText_frame E imageUrl (p_title product)
                (p_tags product) shop (Some (maxRetries settings)) st) as Hfr.
  destruct (generateAltText _ _ _ _ _ _ st) as [[e|alt] st1] eqn:Hgen.
  all: destruct Hfr as (Hv & Hs & Hp & Hj); cbn [snd] in *.
  all: unfold await_env, await_db, recordImageProcessing, addFailedJob,
         incr_errorCount, incr_updatedCount, sleep, mret, M_ret.
  all: cbn.
  all: intros Hrun Hlt; repeat (case_match; simplify_eq/=).
  all: try (rewrite Hv in *; lia).
  all: first
    [ left; rewrite Hp, <- ?app_assoc; eexists; split; [reflexivity|];
      split; [discriminate|]; repeat constructor
    | right; eexists _, _, _; split; [reflexivity|]; eauto ].
Qed.

End Attempt.

(** C8. When the caption is not empty and the platform answers the update
    with field-level user errors, handling the image counts one failure and
    writes nothing: the store is the one the caption generator left, with
    the same ProcessedImage and FailedJob rows as before the image.  Every
    other way of counting a failure for an image leaves a failure record of
    that image behind. *)
Theorem user_errors_leave_store (E : Env) (settings : Settings)
    (scanId shop : ident) (product : ProductNode) (mediaId imageUrl : ident)
    (currentAltText : option jsstring) :
  (forall st newAltText st1 r,
     generateAltText E imageUrl (p_title product) (p_tags product) shop
                     (Some (maxRetries settings)) st = (inr newAltText, st1) ->
     is_empty newAltText = false ->
     media_update E (tick st1) = inr r ->
     has_user_errors r = true ->
     exists st',
       process_attempt E settings scanId shop product mediaId imageUrl
                       currentAltText st = (inr tt, st')
       /\ db st' = db st1
       /\ processedImage (db st') = processedImage (db st)
       /\ failedJob (db st') = failedJob (db st)
       /\ scanHistory (db st') = scanHistory (db st)
       /\ vars st' = error_counted (vars st))
  /\ (forall st st',
        process_attempt E settings scanId shop product mediaId imageUrl
                        currentAltText st = (inr tt, st') ->
        c_errorCount (vars st) < c_errorCount (vars st') ->
        (exists rows,
           processedImage (db st') = processedImage (db st) ++ rows
           /\ rows <> []
           /\ Forall (failure_record scanId mediaId) rows)
        \/ (exists newAltText st1 r,
              generateAltText E imageUrl (p_title product) (p_tags product)
                              shop (Some (maxRetries settings)) st
                = (inr newAltText, st1)
              /\ is_empty newAltText = false
              /\ media_update E (tick st1) = inr r
              /\ has_user_errors r = true)).
Proof.
  split.
  - intros st newAltText st1 r Hgen Hne Hupd Herr.
    pose proof (generateAltText_frame E imageUrl (p_title product)
                  (p_tags product) shop (Some (maxRetries settings)) st) as Hfr.
    rewrite Hgen in Hfr. destruct Hfr as (Hv & Hs & Hp & Hj).
    eexists. split; [exact (user_errors_branch _ _ _ _ _ _ _ _ _ _ _ _
                              Hgen Hne Hupd Herr)|].
    cbn in *. rewrite Hv. done.
  - apply failure_paths_record.
Qed.

Lemma user_errors_leave_store_witness :
  exists st',
    process_attempt rejecting_platform_env DEFAULT_SETTINGS "0" SHOP product_a
      "gid://shopify/MediaImage/1" "https://cdn.example/1.jpg" None
      (start scan_started) = (inr tt, st')
    /\ processedImage (db st') = []
    /\ failedJob (db st') = ∅
    /\ c_errorCount (vars st') = 1.
Proof.
  destruct (user_errors_leave_store rejecting_platform_env DEFAULT_SETTINGS
              "0" SHOP product_a "gid://shopify/MediaImage/1"
              "https://cdn.example/1.jpg" None) as [Hbranch _].
  edestruct (Hbranch (start scan_started))
    as (st' & Hrun & _ & Himg & Hjob & _ & Hvars).
  - vm_compute. reflexivity.
  - reflexivity.
  - vm_compute. reflexivity.
  - reflexivity.
  - exists st'. split; [exact Hrun|]. rewrite Himg, Hjob, Hvars. done.
Defined.

(** *** Scans on a store that takes every call *)

Section ReliableStore.

Variable E : Env.
Hypothesis Hreliable : reliable_store E.

Variables (settings : Settings) (scanId shop : ident) (forceAll : bool).

(** One image in need of a caption is counted once, as updated or as
    failed. *)
Lemma process_attempt_reliable product mediaId imageUrl currentAltText st :
  is_Some (scanHistory (db st) !! scanId) ->
  exists st',
    process_attempt E settings scanId shop product mediaId imageUrl
                    currentAltText st = (inr tt, st')
    /\ scanHistory (db st') = scanHistory (db st)
    /\ c_totalImages (vars st') = c_totalImages (vars st)
    /\ c_missingAltText (vars st') = c_missingAltText (vars st)
    /\ c_updatedCount (vars st') + c_errorCount (vars st') =
       c_updatedCount (vars st) + c_errorCount (vars st) + 1.
Proof.
  intros [scan Hscan].
  unfold process_attempt, try_catch, mbind, M_bind.
  pose proof (generateAltText_frame E imageUrl (p_title product)
                (p_tags product) shop (Some (maxRetries settings)) st) as Hfr.
  destruct (generateAltText _ _ _ _ _ _ st) as [[e|alt] st1] eqn:Hgen.
  all: destruct Hfr as (Hv & Hs & Hp & Hj); cbn [snd] in *.
  all: rewrite <- Hs in Hscan.
  all: unfold await_env, await_db, recordImageProcessing, addFailedJob,
         incr_errorCount, incr_updatedCount, sleep, mret, M_ret.
  all: cbn; rewrite ?Hreliable; cbn; rewrite ?Hscan; cbn.
  all: repeat (case_match; simplify_eq/=; rewrite ?Hreliable, ?Hscan; cbn).
  all: try match goal with
           | H : store_fault E _ = Some _ |- _ =>
               rewrite Hreliable in H; discriminate
           end.
  all: simplify_eq/=.
  all: eexists; split; [reflexivity|]; cbn; rewrite ?Hv, ?Hs.
  all: repeat split; lia.
Qed.

(** One image: it is counted, and either skipped or handled once. *)
Lemma process_image_reliable product mediaEdge st :
  is_Some (scanHistory (db st) !! scanId) ->
  exists st',
    process_image E forceAll settings scanId shop product mediaEdge st
      = (inr tt, st')
    /\ scanHistory (db st') = scanHistory (db st)
    /\ c_totalImages (vars st') = c_totalImages (vars st) + 1
    /\ c_missingAltText (vars st') =
       c_missingAltText (vars st)
       + (if needs_caption forceAll mediaEdge then 1 else 0)
    /\ c_updatedCount (vars st') + c_errorCount (vars st') =
       c_updatedCount (vars st) + c_errorCount (vars st)
       + (if needs_caption forceAll mediaEdge then 1 else 0).
Proof.
  intros Hscan.
  assert (Hnc : needs_caption forceAll mediaEdge =
                negb (negb forceAll && has_alt_text (m_alt mediaEdge.1))).
  { unfold needs_caption. destruct forceAll, (has_alt_text _); reflexivity. }
  rewrite Hnc. unfold process_image, mbind, M_bind.
  unfold incr_totalImages at 1. cbn [fst snd].
  destruct (negb forceAll && has_alt_text (m_alt mediaEdge.1)); cbn [negb].
  - eexists. split; [reflexivity|]. cbn. repeat split; lia.
  - unfold incr_missingAltText at 1; cbn [fst snd].
    match goal with
    | |- context [process_attempt E settings scanId shop product ?m ?u ?a ?s] =>
        destruct (process_attempt_reliable product m u a s)
          as (st' & Hrun & Hs & Ht & Hm & Hc); [exact Hscan|]
    end.
    exists st'. split; [exact Hrun|]. cbn in *. repeat split;
      try assumption; lia.
Qed.

Lemma images_reliable product (images : list (MediaImage * ident)) :
  forall st,
  is_Some (scanHistory (db st) !! scanId) ->
  exists st',
    for_of images (process_image E forceAll settings scanId shop product) st
      = (inr tt, st')
    /\ scanHistory (db st') = scanHistory (db st)
    /\ c_totalImages (vars st') =
       c_totalImages (vars st) + Z.of_nat (length images)
    /\ c_missingAltText (vars st') =
       c_missingAltText (vars st)
       + Z.of_nat (length (List.filter (needs_caption forceAll) images))
    /\ c_updatedCount (vars st') + c_errorCount (vars st') =
       c_updatedCount (vars st) + c_errorCount (vars st)
       + Z.of_nat (length (List.filter (needs_caption forceAll) images)).
Proof.
  induction images as [|m images IH]; intros st Hscan.
  - eexists. split; [reflexivity|]. cbn. repeat split; lia.
  - destruct (process_image_reliable product m st Hscan)
      as (st1 & Hrun1 & Hs1 & Ht1 & Hm1 & Hc1).
    destruct (IH st1) as (st' & Hrun & Hs & Ht & Hm & Hc);
      [rewrite Hs1; exact Hscan|].
    exists st'. cbn [for_of]. unfold mbind, M_bind. rewrite Hrun1.
    split; [exact Hrun|]. split; [congruence|].
    cbn [List.filter length].
    destruct (needs_caption forceAll m); cbn [length]; repeat split; lia.
Qed.

Lemma products_reliable (products : list ProductNode) :
  forall st,
  is_Some (scanHistory (db st) !! scanId) ->
  exists st',
    for_of products (process_product E forceAll settings scanId shop) st
      = (inr tt, st')
    /\ scanHistory (db st') = scanHistory (db st)
    /\ c_totalImages (vars st') =
       c_totalImages (vars st) + Z.of_nat (length (catalog_images products))
    /\ c_missingAltText (vars st') =
       c_missingAltText (vars st) + missing_count forceAll products
    /\ c_updatedCount (vars st') + c_errorCount (vars st') =
       c_updatedCount (vars st) + c_errorCount (vars st)
       + missing_count forceAll products.
Proof.
  unfold missing_count.
  induction products as [|p products IH]; intros st Hscan.
  - eexists. split; [reflexivity|]. cbn. repeat split; lia.
  - destruct (images_reliable p (image_media p) st Hscan)
      as (st1 & Hrun1 & Hs1 & Ht1 & Hm1 & Hc1).
    assert (Hp : process_product E forceAll settings scanId shop p st
                 = (inr tt, st1)).
    { unfold process_product. destruct (image_media p); exact Hrun1. }
    destruct (IH st1) as (st' & Hrun & Hs & Ht & Hm & Hc);
      [rewrite Hs1; exact Hscan|].
    exists st'. cbn [for_of]. unfold mbind, M_bind. rewrite Hp.
    split; [exact Hrun|]. split; [congruence|].
    unfold catalog_images in *. cbn [flat_map].
    rewrite List.filter_app, !length_app. repeat split; lia.
Qed.

End ReliableStore.

(** On a store that takes every call, a completed scan has counted every
    image of the catalog once: as skipped, or else as processed or failed.
    The persisted aggregates add up to the number of images. *)
Lemma scan_aggregates_reliable E shop forceAll st c st' :
  reliable_store E ->
  action E shop forceAll st = (inr c, st') ->
  exists products scan,
    products_query E (S (S (tick st))) = inr products
    /\ c_totalImages c = Z.of_nat (length (catalog_images products))
    /\ c_missingAltText c = missing_count forceAll products
    /\ c_updatedCount c + c_errorCount c = c_missingAltText c
    /\ scanHistory (db st') !! sh_id scan = Some scan
    /\ sh_totalImages scan = c_totalImages c
    /\ sh_imagesSkipped scan = c_totalImages c - c_missingAltText c
    /\ sh_imagesProcessed scan = c_updatedCount c
    /\ sh_imagesFailed scan = c_errorCount c
    /\ sh_imagesSkipped scan + sh_imagesProcessed scan + sh_imagesFailed scan
       = sh_totalImages scan.
Proof.
  intros Hrel. unfold action, mbind, M_bind.
  unfold await_db at 1. rewrite Hrel.
  destruct (getSettings shop (db st)) as [e|[settings d1]] eqn:Hset;
    [unfold getSettings in Hset; destruct (appSettings (db st) !! shop);
     discriminate|].
  unfold await_db at 1. cbn [tick next_tick set_db db]. rewrite Hrel.
  unfold createScanHistory at 1.
  set (scan0 := {| sh_id := generated_id (scanHistory d1) |}).
  unfold await_env at 1. cbn [tick next_tick set_db db fst snd].
  destruct (products_query E (S (S (tick st)))) as [e|products] eqn:Hq;
    [discriminate|].
  unfold init_vars at 1. cbn [fst snd].
  match goal with
  | |- context [for_of products ?body ?s] =>
      destruct (products_reliable E Hrel settings (sh_id scan0) shop forceAll
                  products s) as (st2 & Hloop & Hs & Ht & Hm & Hc)
  end.
  { cbn. rewrite lookup_insert_eq. eauto. }
  rewrite Hloop. unfold get_vars at 1. cbn [fst snd].
  cbn in Hs, Ht, Hm, Hc. clear Hloop.
  assert (Hlook : scanHistory (db st2) !! sh_id scan0 = Some scan0)
    by (rewrite Hs; apply lookup_insert_eq).
  unfold await_db at 1. rewrite Hrel. unfold completeScanHistory.
  rewrite Hlook. cbn [mret M_ret fst snd].
  intros [= <- <-].
  eexists products, _. split; [reflexivity|].
  split; [lia|]. split; [lia|]. split; [lia|].
  split. { cbn. apply lookup_insert_eq. }
  cbn. repeat split; lia.
Qed.

(** An image that has alt text, in a scan that is not forced, is counted
    and nothing else: no call leaves the process and no row is written. *)
Lemma skipped_image_not_recorded E forceAll settings scanId shop product
    mediaEdge st :
  needs_caption forceAll mediaEdge = false ->
  exists st',
    process_image E forceAll settings scanId shop product mediaEdge st
      = (inr tt, st')
    /\ db st' = db st /\ tick st' = tick st /\ log st' = log st
    /\ c_totalImages (vars st') = c_totalImages (vars st) + 1
    /\ c_missingAltText (vars st') = c_missingAltText (vars st)
    /\ c_updatedCount (vars st') = c_updatedCount (vars st)
    /\ c_errorCount (vars st') = c_errorCount (vars st).
Proof.
  unfold needs_caption, process_image, mbind, M_bind. intros Hskip.
  destruct forceAll; [discriminate|].
  destruct (has_alt_text (m_alt mediaEdge.1)); [|discriminate].
  eexists. split; [reflexivity|]. cbn. done.
Qed.

(** *** Scans on any store *)

Section AnyStore.

Variable E : Env.
Variables (settings : Settings) (scanId shop : ident) (forceAll : bool).

(** Handling an image touches neither the image counters nor the scans,
    however it ends. *)
Lemma process_attempt_counts product mediaId imageUrl currentAltText st :
  let st' := (process_attempt E settings scanId shop product mediaId imageUrl
                              currentAltText st).2 in
  scanHistory (db st') = scanHistory (db st)
  /\ c_totalImages (vars st') = c_totalImages (vars st)
  /\ c_missingAltText (vars st') = c_missingAltText (vars st).
Proof.
  unfold process_attempt, try_catch, mbind, M_bind.
  pose proof (generateAltText_frame E imageUrl (p_title product)
                (p_tags product) shop (Some (maxRetries settings)) st) as Hfr.
  destruct (generateAltText _ _ _ _ _ _ st) as [[e|alt] st1] eqn:Hgen.
  all: destruct Hfr as (Hv & Hs & Hp & Hj); cbn [snd] in *.
  all: unfold await_env, await_db, recordImageProcessing, addFailedJob,
         incr_errorCount, incr_updatedCount, sleep, mret, M_ret.
  all: cbn.
  all: repeat (case_match; simplify_eq/=).
  all: rewrite ?Hv, ?Hs; done.
Qed.

Lemma process_image_counts product mediaEdge st :
  let st' := (process_image E forceAll settings scanId shop product
                            mediaEdge st).2 in
  scanHistory (db st') = scanHistory (db st)
  /\ c_totalImages (vars st') = c_totalImages (vars st) + 1
  /\ c_missingAltText (vars st') =
     c_missingAltText (vars st)
     + (if needs_caption forceAll mediaEdge then 1 else 0).
Proof.
  assert (Hnc : needs_caption forceAll mediaEdge =
                negb (negb forceAll && has_alt_text (m_alt mediaEdge.1))).
  { unfold needs_caption. destruct forceAll, (has_alt_text _); reflexivity. }
  rewrite Hnc. unfold process_image, mbind, M_bind.
  unfold incr_totalImages at 1. cbn [fst snd].
  destruct (negb forceAll && has_alt_text (m_alt mediaEdge.1)); cbn [negb].
  - cbn. repeat split; lia.
  - unfold incr_missingAltText at 1; cbn [fst snd].
    match goal with
    | |- context [process_attempt E settings scanId shop product ?m ?u ?a ?s] =>
        destruct (process_attempt_counts product m u a s) as (Hs & Ht & Hm)
    end.
    cbn in *. repeat split; try assumption; lia.
Qed.

Lemma images_counts product (images : list (MediaImage * ident)) :
  forall st st',
  for_of images (process_image E forceAll settings scanId shop product) st
    = (inr tt, st') ->
  scanHistory (db st') = scanHistory (db st)
  /\ c_totalImages (vars st') =
     c_totalImages (vars st) + Z.of_nat (length images)
  /\ c_missingAltText (vars st') =
     c_missingAltText (vars st)
     + Z.of_nat (length (List.filter (needs_caption forceAll) images)).
Proof.
  induction images as [|m images IH]; intros st st'.
  - intros [= <-]. cbn. repeat split; lia.
  - cbn [for_of]. unfold mbind, M_bind.
    pose proof (process_image_counts product m st) as (Hs1 & Ht1 & Hm1).
    destruct (process_image E forceAll settings scanId shop product m st)
      as [[e|[]] st1]; [discriminate|].
    intros Hrun. destruct (IH _ _ Hrun) as (Hs & Ht & Hm).
    cbn [snd] in *. split; [congruence|].
    cbn [List.filter length].
    destruct (needs_caption forceAll m); cbn [length]; split; lia.
Qed.

Lemma products_counts (products : list ProductNode) :
  forall st st',
  for_of products (process_product E forceAll settings scanId shop) st
    = (inr tt, st') ->
  scanHistory (db st') = scanHistory (db st)
  /\ c_totalImages (vars st') =
     c_totalImages (vars st) + Z.of_nat (length (catalog_images products))
  /\ c_missingAltText (vars st') =
     c_missingAltText (vars st) + missing_count forceAll products.
Proof.
  unfold missing_count.
  induction products as [|p products IH]; intros st st'.
  - intros [= <-]. cbn. repeat split; lia.
  - cbn [for_of]. unfold mbind, M_bind.
    destruct (process_product E forceAll settings scanId shop p st)
      as [[e|[]] st1] eqn:Hp; [discriminate|].
    assert (Himgs : for_of (image_media p)
                      (process_image E forceAll settings scanId shop p) st
                    = (inr tt, st1)).
    { unfold process_product in Hp. destruct (image_media p); exact Hp. }
    destruct (images_counts _ _ _ _ Himgs) as (Hs1 & Ht1 & Hm1).
    intros Hrun. destruct (IH _ _ Hrun) as (Hs & Ht & Hm).
    split; [congruence|].
    unfold catalog_images in *. cbn [flat_map].
    rewrite List.filter_app, !length_app. split; lia.
Qed.

End AnyStore.

Lemma await_db_tick {A} E (op : Z -> Db -> js_error + A * Db) st :
  tick (await_db E op st).2 = S (tick st).
Proof.
  unfold await_db. destruct (store_fault E (tick st)); [reflexivity|].
  destruct (op _ _) as [e|[a d]]; reflexivity.
Qed.

(** Whatever the store does, a completed scan has counted every image of the
    catalog the platform returned, and as skipped exactly those that did not
    need a caption. *)
Lemma scan_counts_images E shop forceAll st c st' :
  action E shop forceAll st = (inr c, st') ->
  exists products scanId scan,
    products_query E (S (S (tick st))) = inr products
    /\ c_totalImages c = Z.of_nat (length (catalog_images products))
    /\ c_missingAltText c = missing_count forceAll products
    /\ scanHistory (db st') !! scanId = Some scan
    /\ sh_totalImages scan = c_totalImages c
    /\ sh_imagesSkipped scan = sh_totalImages scan - c_missingAltText c
    /\ sh_imagesProcessed scan = c_updatedCount c
    /\ sh_imagesFailed scan = c_errorCount c.
Proof.
  unfold action, mbind, M_bind.
  pose proof (await_db_tick E (fun _ => getSettings shop) st) as Ht1.
  destruct (await_db E (fun _ => getSettings shop) st)
    as [[e|settings] st1]; [discriminate|].
  pose proof (await_db_tick E
                (fun now => createScanHistory now shop (Some forceAll)) st1)
    as Ht2.
  destruct (await_db E (fun now => createScanHistory now shop (Some forceAll))
                     st1) as [[e|scan0] st2]; [discriminate|].
  cbn [snd] in Ht1, Ht2. rewrite Ht1 in Ht2.
  unfold await_env at 1. cbn [fst snd]. rewrite Ht2.
  destruct (products_query E (S (S (tick st)))) as [e|products] eqn:Hq;
    [discriminate|].
  unfold init_vars at 1. cbn [fst snd].
  match goal with
  | |- context [for_of products ?body ?s] =>
      destruct (for_of products body s) as [[e|[]] st3] eqn:Hloop;
        [discriminate|];
      destruct (products_counts E settings (sh_id scan0) shop forceAll
                  products _ _ Hloop) as (Hs & Ht & Hm)
  end.
  unfold get_vars at 1. cbn [fst snd].
  unfold await_db at 1, completeScanHistory.
  destruct (store_fault E (tick st3)); [discriminate|].
  destruct (scanHistory (db st3) !! sh_id scan0) as [scan|] eqn:Hscan;
    [|discriminate].
  cbn [mret M_ret fst snd]. intros [= <- <-]. cbn in Ht, Hm.
  eexists products, _, _. split; [reflexivity|]. split; [lia|]. split; [lia|].
  split. { cbn. rewrite lookup_insert_eq. reflexivity. }
  cbn. repeat split; lia.
Qed.

(** *** Scans of concrete catalogs *)

(** The scenario of two products: the image without alt text is captioned
    and recorded, the image with alt text is counted as skipped and not
    recorded. *)
Example scan_two_products :
  let run := action (calm_env [product_a; product_b]) SHOP false
                    (start empty_db) in
  run.1 = inr {| c_totalImages := 2; c_missingAltText := 1;
                 c_updatedCount := 1; c_errorCount := 0 |}
  /\ List.map (fun row => (pi_imageId row, pi_status row))
              (processedImage (db run.2))
     = [("gid://shopify/MediaImage/1", ImgSuccess)]
  /\ (sh_imagesSkipped <$> scanHistory (db run.2) !! "0") = Some 1.
Proof. vm_compute. repeat split; reflexivity. Qed.

(** C6 fails on the code.  A scan of one product with one image without alt
    text, in which the store rejects the write of the success record once:
    the image was already counted as updated, the [catch] clause counts it
    as failed too, and the scan completes with one image in total, none
    skipped, one processed and one failed. *)
Theorem double_count_on_store_fault :
  exists st' scan,
    action flaky_store_env SHOP false (start empty_db) =
      (inr {| c_totalImages := 1; c_missingAltText := 1;
              c_updatedCount := 1; c_errorCount := 1 |}, st')
    /\ scanHistory (db st') !! "0" = Some scan
    /\ sh_status scan = CompletedWithErrors
    /\ sh_totalImages scan = 1
    /\ sh_imagesSkipped scan = 0
    /\ sh_imagesProcessed scan = 1
    /\ sh_imagesFailed scan = 1
    /\ ~ (sh_imagesSkipped scan + sh_imagesProcessed scan
          + sh_imagesFailed scan <= sh_totalImages scan).
Proof.
  eexists _, _. split; [vm_compute; reflexivity|].
  split; [vm_compute; reflexivity|]. cbn. repeat split; lia.
Qed.

(** * Further properties *)

(** ** The dead-letter queue: listings *)

Lemma elem_of_failedJob_rows (d : Db) (job : FailedJob) :
  job ∈ failedJob_rows d <-> exists id, failedJob d !! id = Some job.
Proof.
  unfold failedJob_rows. rewrite list_elem_of_fmap. split.
  - intros ([id job'] & -> & Hin). exists id.
    apply elem_of_map_to_list. exact Hin.
  - intros [id Hid]. exists (id, job). split; [reflexivity|].
    apply elem_of_map_to_list. exact Hid.
Qed.

Lemma elem_of_List_filter {A} (f : A -> bool) (l : list A) (x : A) :
  x ∈ List.filter f l <-> x ∈ l /\ f x = true.
Proof. rewrite !list_elem_of_In. apply List.filter_In. Qed.

#[local] Instance created_before_total : Total created_before.
Proof. intros a b. unfold created_before. lia. Qed.

#[local] Instance created_before_trans : Transitive created_before.
Proof. intros a b c. unfold created_before. lia. Qed.

#[local] Instance created_after_total : Total created_after.
Proof. intros a b. unfold created_after. lia. Qed.

#[local] Instance created_after_trans : Transitive created_after.
Proof. intros a b c. unfold created_after. lia. Qed.

(** [getPendingRetries] returns the rows of the table that belong to the
    shop, are [pending] and have [nextRetryAt] at or before the clock
    reading, each as often as the table holds it, oldest created first. *)
Theorem getPendingRetries_due_sorted (now : time) (shop : ident) (d : Db) :
  (forall job,
     job ∈ getPendingRetries now shop d <->
     (exists id, failedJob d !! id = Some job)
     /\ fj_shop job = shop
     /\ fj_status job = Pending
     /\ (exists t, fj_nextRetryAt job = Some t /\ t <= now))
  /\ getPendingRetries now shop d ≡ₚ
       List.filter (due now shop) (failedJob_rows d)
  /\ StronglySorted created_before (getPendingRetries now shop d).
Proof.
  unfold getPendingRetries. split; [|split].
  - intros job. rewrite merge_sort_Permutation, elem_of_List_filter,
      elem_of_failedJob_rows.
    unfold due, is_pending. rewrite !andb_true_iff, String.eqb_eq.
    split.
    + intros (Hid & (Hshop & Hst) & Hnext). split; [exact Hid|].
      split; [exact Hshop|]. split; [destruct (fj_status job); done|].
      destruct (fj_nextRetryAt job) as [t|]; [|discriminate].
      exists t. split; [reflexivity|lia].
    + intros (Hid & Hshop & Hst & t & Ht & Hle). rewrite Hst, Ht.
      repeat split; try assumption. lia.
  - apply merge_sort_Permutation.
  - apply StronglySorted_merge_sort; apply _.
Qed.

Lemma getPendingRetries_due_sorted_witness :
  job_example ∈ getPendingRetries 60000 "demo.myshopify.com" queue_example
  /\ job_example ∉ getPendingRetries 59999 "demo.myshopify.com" queue_example.
Proof.
  destruct (getPendingRetries_due_sorted 60000 "demo.myshopify.com"
              queue_example) as [Hin _].
  destruct (getPendingRetries_due_sorted 59999 "demo.myshopify.com"
              queue_example) as [Hout _].
  split.
  - apply Hin. split; [exists "job-1"; apply lookup_insert_eq|].
    split; [reflexivity|]. split; [reflexivity|].
    exists 60000. split; [reflexivity|lia].
  - intros H. apply Hout in H. destruct H as (_ & _ & _ & t & [= <-] & Ht).
    lia.
Defined.

(** A row is listed as due exactly when it is itself due: the listing does
    not depend on the rest of the table. *)
Lemma elem_of_getPendingRetries now shop d job :
  job ∈ getPendingRetries now shop d <->
  (exists id, failedJob d !! id = Some job) /\ due now shop job = true.
Proof.
  unfold getPendingRetries.
  rewrite merge_sort_Permutation, elem_of_List_filter, elem_of_failedJob_rows.
  reflexivity.
Qed.

(** A job just enqueued is handed out by the sweep of its shop exactly from
    one minute after the enqueue on, and the enqueue changes nothing about
    which older jobs are due. *)
Theorem enqueued_job_due_after_a_minute (now : time) (data : FailedJobData)
    (d d' : Db) (job : FailedJob) :
  addFailedJob now data d = inr (job, d') ->
  (forall t, job ∈ getPendingRetries t (d_shop data) d' <-> now + 60000 <= t)
  /\ (forall t shop other, other <> job ->
        other ∈ getPendingRetries t shop d' <->
        other ∈ getPendingRetries t shop d).
Proof.
  unfold addFailedJob. intros [= <- <-]. split.
  - intros t. rewrite elem_of_getPendingRetries. cbn.
    unfold due, is_pending. cbn. rewrite String.eqb_refl. cbn. split.
    + intros [_ H]. lia.
    + intros H. split; [eexists; apply lookup_insert_eq|]. lia.
  - intros t shop other Hne. rewrite !elem_of_getPendingRetries. cbn.
    split; intros [[id Hid] Hdue]; (split; [|exact Hdue]).
    + rewrite lookup_insert in Hid. case_decide; [congruence|]. eauto.
    + exists id. rewrite lookup_insert_ne; [exact Hid|].
      intros <-. rewrite generated_id_fresh in Hid. discriminate.
Qed.

Lemma enqueued_job_due_after_a_minute_witness :
  exists job d',
    addFailedJob 1000 job_data_example empty_db = inr (job, d')
    /\ job ∈ getPendingRetries 61000 "demo.myshopify.com" d'
    /\ job ∉ getPendingRetries 60999 "demo.myshopify.com" d'.
Proof.
  eexists _, _. split; [reflexivity|].
  destruct (enqueued_job_due_after_a_minute 1000 job_data_example empty_db
              _ _ eq_refl) as [Hdue _].
  split.
  - apply (Hdue 61000). lia.
  - intros H. apply (Hdue 60999) in H. lia.
Defined.

(** After [markRetrying] the job is out of every sweep, whatever the clock
    says, until it is rescheduled; after [scheduleRetry] it is back in the
    sweeps of its shop exactly when its retries are not used up and the
    delay has passed. *)
Theorem sweep_visibility (jobId : ident) (d d' : Db) (job' : FailedJob) :
  (forall now,
     markRetrying now jobId d = inr (job', d') ->
     forall t shop, job' ∉ getPendingRetries t shop d')
  /\ (forall now stamp delayMs,
        scheduleRetry now stamp jobId delayMs d = inr (job', d') ->
        forall t,
          job' ∈ getPendingRetries t (fj_shop job') d' <->
          fj_retryCount job' < fj_maxRetries job'
          /\ now + match delayMs with Some ms => ms | None => 120000 end <= t).
Proof.
  split.
  - intros now. unfold markRetrying.
    destruct (failedJob d !! jobId) as [job|]; [|discriminate].
    intros [= <- <-] t shop. rewrite elem_of_getPendingRetries.
    unfold due, is_pending. cbn. rewrite andb_false_r. cbn.
    intros [_ [=]].
  - intros now stamp delayMs. unfold scheduleRetry, new_Date.
    destruct (failedJob d !! jobId) as [job|]; [|discriminate].
    destruct (Z.leb_spec (fj_maxRetries job) (fj_retryCount job + 1))
      as [Hmax|Hmax].
    + intros [= <- <-] t. rewrite elem_of_getPendingRetries.
      unfold due, is_pending. cbn. rewrite String.eqb_refl. cbn.
      split; [intros [_ [=]]|lia].
    + destruct (valid_time _); [|discriminate].
      intros [= <- <-] t. rewrite elem_of_getPendingRetries.
      unfold due, is_pending. cbn. rewrite String.eqb_refl. cbn. split.
      * intros [_ Hdue]. lia.
      * intros [_ Hdue]. split; [eexists; apply lookup_insert_eq|]. lia.
Qed.

Lemma sweep_visibility_witness :
  (exists job' d',
     markRetrying 1000 "job-1" queue_example = inr (job', d')
     /\ job' ∉ getPendingRetries 999999 "demo.myshopify.com" d')
  /\ exists job' d',
    scheduleRetry 1000 1001 "job-1" None queue_example = inr (job', d')
    /\ job' ∈ getPendingRetries 121000 "demo.myshopify.com" d'
    /\ job' ∉ getPendingRetries 120999 "demo.myshopify.com" d'.
Proof.
  split.
  { eexists _, _. split; [vm_compute; reflexivity|].
    match goal with
    | |- ?j ∉ getPendingRetries _ _ ?d' =>
        destruct (sweep_visibility "job-1" queue_example d' j) as [Hout _]
    end.
    apply (Hout 1000). vm_compute. reflexivity. }
  eexists _, _. split; [vm_compute; reflexivity|].
  match goal with
  | |- ?j ∈ getPendingRetries _ _ ?d' /\ _ =>
      destruct (sweep_visibility "job-1" queue_example d' j) as [_ Hback]
  end.
  specialize (Hback 1000 1001 None).
  split.
  - apply Hback; [vm_compute; reflexivity|]. cbn. lia.
  - intros H. apply Hback in H; [|vm_compute; reflexivity]. cbn in H. lia.
Defined.

(** Removing the job that was just enqueued gives back the store as it was;
    removing leaves every other job as it is; and removing a job that is not
    in the store rejects. *)
Theorem removeFailedJob_undoes_enqueue (d : Db) :
  (forall now data job d1,
     addFailedJob now data d = inr (job, d1) ->
     removeFailedJob (fj_id job) d1 = inr (job, d))
  /\ (forall jobId job d1,
        removeFailedJob jobId d = inr (job, d1) ->
        failedJob d !! jobId = Some job
        /\ failedJob d1 !! jobId = None
        /\ forall other, other <> jobId ->
             failedJob d1 !! other = failedJob d !! other)
  /\ (forall jobId,
        failedJob d !! jobId = None ->
        exists e, removeFailedJob jobId d = inl e).
Proof.
  split; [|split].
  - intros now data job d1. unfold addFailedJob. intros [= <- <-].
    unfold removeFailedJob. cbn. rewrite lookup_insert_eq.
    rewrite delete_insert_id by apply generated_id_fresh.
    destruct d; reflexivity.
  - intros jobId job d1. unfold removeFailedJob.
    destruct (failedJob d !! jobId) as [job0|] eqn:Hjob; [|discriminate].
    intros [= <- <-]. split; [reflexivity|]. cbn.
    split; [apply lookup_delete_eq|].
    intros other Hne. apply lookup_delete_ne. congruence.
  - intros jobId Hnone. unfold removeFailedJob. rewrite Hnone. eauto.
Qed.

Lemma removeFailedJob_undoes_enqueue_witness :
  (exists job d1,
     addFailedJob 1000 job_data_example queue_example = inr (job, d1)
     /\ removeFailedJob (fj_id job) d1 = inr (job, queue_example))
  /\ exists e, removeFailedJob "job-2" queue_example = inl e.
Proof.
  destruct (removeFailedJob_undoes_enqueue queue_example)
    as (Hundo & _ & Hmissing).
  split.
  - eexists _, _. split; [reflexivity|]. eapply Hundo. reflexivity.
  - apply Hmissing. vm_compute. reflexivity.
Defined.

Lemma store_step_jobs_consistent d d' :
  store_step d d' ->
  (forall id job, failedJob d !! id = Some job -> job_consistent id job) ->
  forall id job, failedJob d' !! id = Some job -> job_consistent id job.
Proof.
  intros Hstep Hinv id job.
  destruct Hstep as [shop d s d' H|now data d row d' H|now jobId d row d' H
                    |now stamp jobId delayMs d row d' H|jobId d row d' H
                    |now shop forceAll d scan d' H|now scanId stats d scan d' H
                    |now data d row d' H].
  - unfold getSettings in H. invert_op H; apply Hinv.
  - unfold addFailedJob in H. injection H as <- <-. cbn.
    rewrite lookup_insert. case_decide; [|apply Hinv].
    intros [= <-]. split; cbn; try done; try lia; eauto.
    unfold or_default. destruct (d_maxRetries data) as [m|]; [|lia].
    destruct (Z.eqb_spec m 0); lia.
  - unfold markRetrying in H.
    destruct (failedJob d !! jobId) as [old|] eqn:Hold; [|discriminate].
    injection H as <- <-. cbn.
    rewrite lookup_insert. case_decide; [|apply Hinv].
    intros [= <-]. destruct (Hinv _ _ Hold). subst id.
    split; cbn; try done.
  - unfold scheduleRetry, new_Date in H.
    destruct (failedJob d !! jobId) as [old|] eqn:Hold; [|discriminate].
    destruct (Hinv _ _ Hold).
    destruct (Z.leb_spec (fj_maxRetries old) (fj_retryCount old + 1));
      [|destruct (valid_time _); [|discriminate]];
      injection H as <- <-; cbn;
      (rewrite lookup_insert; case_decide; [|apply Hinv]);
      intros [= <-]; subst id; split; cbn; try done; try lia; eauto.
  - unfold removeFailedJob in H.
    destruct (failedJob d !! jobId) as [old|] eqn:Hold; [|discriminate].
    injection H as <- <-. cbn. rewrite lookup_delete.
    case_decide; [discriminate|apply Hinv].
  - unfold createScanHistory in H. injection H as <- <-. apply Hinv.
  - unfold completeScanHistory in H.
    destruct (scanHistory d !! scanId); [|discriminate].
    injection H as <- <-. apply Hinv.
  - unfold recordImageProcessing in H.
    destruct (scanHistory d !! r_scanId data); [|discriminate].
    injection H as <- <-. apply Hinv.
Qed.

(** In every store the operations can build, a job sits under its own id,
    allows a number of retries that is not 0, has a retry count that is not
    negative and a next-retry time; while it is [pending] its retry count
    is 0 or below [maxRetries], and once it is [failed_permanent] its retry
    count has reached [maxRetries]. *)
Theorem failed_jobs_consistent (d : Db) :
  reachable d ->
  forall id job, failedJob d !! id = Some job ->
    job_consistent id job
    /\ (0 < fj_maxRetries job -> fj_status job = Pending ->
        fj_retryCount job < fj_maxRetries job).
Proof.
  intros Hreach id job Hjob.
  assert (Hcons : job_consistent id job).
  { revert id job Hjob.
    apply (rtc_ind_r (R := store_step)
             (fun d => forall id job, failedJob d !! id = Some job ->
                                      job_consistent id job) empty_db);
      [|clear d Hreach|exact Hreach].
    - intros id job. cbn. rewrite lookup_empty. discriminate.
    - intros d d' _ Hstep IH. exact (store_step_jobs_consistent d d' Hstep IH). }
  split; [exact Hcons|]. intros Hpos Hpending.
  destruct Hcons as [_ _ _ _ Hp _]. destruct (Hp Hpending); lia.
Qed.

Lemma failed_jobs_consistent_witness :
  exists job d',
    addFailedJob 1000 job_data_example empty_db = inr (job, d')
    /\ job_consistent (fj_id job) job.
Proof.
  destruct (addFailedJob 1000 job_data_example empty_db) as [e|[job d']]
    eqn:Hrun; [discriminate|].
  exists job, d'. split; [reflexivity|].
  eapply failed_jobs_consistent.
  - eapply rtc_once, step_addFailedJob, Hrun.
  - unfold addFailedJob in Hrun. injection Hrun as <- <-.
    cbn [failedJob set_failedJob fj_id]. apply lookup_insert_eq.
Defined.

Lemma List_filter_Permutation {A} (f : A -> bool) (l l' : list A) :
  l ≡ₚ l' -> List.filter f l ≡ₚ List.filter f l'.
Proof.
  induction 1 as [|x l l' _ IH|x y l|l l' l'' _ IH1 _ IH2]; cbn.
  - reflexivity.
  - destruct (f x); [constructor|]; exact IH.
  - destruct (f x), (f y); try reflexivity. constructor.
  - etransitivity; eassumption.
Qed.

Lemma List_filter_length_le {A} (f g : A -> bool) (l : list A) :
  (forall x, f x = true -> g x = true) ->
  (length (List.filter f l) <= length (List.filter g l))%nat.
Proof.
  intros Himp. induction l as [|x l IH]; cbn; [lia|].
  destruct (f x) eqn:Hf.
  - rewrite (Himp x Hf). cbn. lia.
  - destruct (g x); cbn; lia.
Qed.

Lemma List_filter_filter {A} (f g : A -> bool) (l : list A) :
  List.filter f (List.filter g l) = List.filter (fun x => g x && f x) l.
Proof.
  induction l as [|x l IH]; cbn; [reflexivity|].
  destruct (g x); cbn; [destruct (f x)|]; rewrite IH; reflexivity.
Qed.

(** The pending-retries figure of the dashboard counts the [pending] jobs of
    the shop whether they are due or not, so at no clock reading does a
    sweep return more jobs than the figure says. *)
Theorem pendingRetries_bounds_sweep (shop : ident) (d : Db) :
  pendingRetries shop d =
    Z.of_nat (length (List.filter
                        (fun job => String.eqb (fj_shop job) shop
                                    && is_pending job)
                        (failedJob_rows d)))
  /\ forall now,
       Z.of_nat (length (getPendingRetries now shop d)) <= pendingRetries shop d.
Proof.
  assert (Hfig : pendingRetries shop d =
            Z.of_nat (length (List.filter
                        (fun job => String.eqb (fj_shop job) shop
                                    && is_pending job)
                        (failedJob_rows d)))).
  { unfold pendingRetries, getAllFailedJobs. f_equal.
    rewrite <- List_filter_filter. apply Permutation_length.
    apply List_filter_Permutation, merge_sort_Permutation. }
  split; [exact Hfig|]. intros now. rewrite Hfig.
  unfold getPendingRetries.
  rewrite (Permutation_length (merge_sort_Permutation _ _)).
  apply inj_le, List_filter_length_le.
  intros job. unfold due. rewrite !andb_true_iff. tauto.
Qed.

(** ** The classifier and the errors of the caption generator *)

Lemma Regex_test_app_r (p q s : jsstring) :
  Regex.test p s = true -> Regex.test p (q ++ s) = true.
Proof.
  intros H. induction q as [|c q IH]; [exact H|].
  cbn [app Regex.test]. rewrite IH. apply orb_true_r.
Qed.

Lemma Regex_test_i_app_r (p q s : jsstring) :
  Regex.test_i p s = true -> Regex.test_i p (q ++ s) = true.
Proof.
  unfold Regex.test_i. rewrite List.map_app. apply Regex_test_app_r.
Qed.

Lemma Regex_test_nil_r (p : jsstring) :
  p <> [] -> Regex.test p [] = false.
Proof. destruct p; [done|reflexivity]. Qed.

(** A message that one of the six patterns matches is still matched by it
    behind any prefix. *)
Lemma retryable_message_app (prefix : jsstring) (e : js_error) :
  e_message e <> [] ->
  isRetryableError e = true ->
  isRetryableError (Error (prefix ++ e_message e)) = true.
Proof.
  intros Hne. unfold isRetryableError.
  destruct (e_message e) as [|c m] eqn:Hm; [done|].
  assert (Hmsg : e_message (Error (prefix ++ c :: m)) = prefix ++ c :: m)
    by reflexivity.
  rewrite Hmsg. destruct (prefix ++ c :: m) as [|c' m'] eqn:Happ.
  { destruct prefix; discriminate. }
  rewrite <- Happ. rewrite !orb_true_iff.
  intros [[[[[H|H]|H]|H]|H]|H];
    [ do 5 left | do 4 left; right | do 3 left; right
    | do 2 left; right | left; right | right ];
    first [apply Regex_test_i_app_r, H | apply Regex_test_app_r, H].
Qed.

(** When all the attempts of the generator fail and the last failure is
    rate limiting, by status or by message, or has a message that the
    classifier accepts, the error the generator throws is one the
    classifier accepts: the caller enqueues the image for a later retry. *)
Theorem exhausted_error_stays_retryable (maxLength R : Z)
    (outcome : Z -> attempt_outcome) (e : js_error) :
  1 <= R ->
  (forall i, 0 <= i < R -> exists e', outcome i = Rejected e') ->
  outcome (R - 1) = Rejected e ->
  is_rate_limit e = true
  \/ (e_message e <> [] /\ isRetryableError e = true) ->
  exists thrown,
    (run_attempts maxLength R outcome).2 = inl thrown
    /\ isRetryableError thrown = true.
Proof.
  intros HR Hall Hlast Hcls.
  rewrite (run_attempts_exhausted maxLength R outcome e HR Hall Hlast).
  eexists. split; [reflexivity|].
  destruct (match e_status e with Some s => s =? 429 | None => false end)
    eqn:Hst; [vm_compute; reflexivity|].
  assert (Hmsg : e_message e <> [] /\ isRetryableError e = true).
  { destruct Hcls as [Hrl|Hmsg]; [|exact Hmsg].
    unfold is_rate_limit in Hrl. rewrite Hst, orb_false_l in Hrl.
    assert (Hne : e_message e <> []).
    { intros Hnil. rewrite Hnil in Hrl. vm_compute in Hrl. discriminate. }
    split; [exact Hne|]. unfold isRetryableError.
    destruct (e_message e); [done|]. rewrite Hrl. reflexivity. }
  destruct Hmsg as [Hne Hret].
  pose proof (retryable_message_app (lit "Failed to generate alt-text: ")
                e Hne Hret) as H.
  destruct (e_message e); [done|exact H].
Qed.

Lemma exhausted_error_stays_retryable_witness :
  exists thrown,
    (run_attempts 100 3 always_rate_limit_message).2 = inl thrown
    /\ isRetryableError thrown = true.
Proof.
  apply (exhausted_error_stays_retryable 100 3 always_rate_limit_message
           rate_limit_by_message).
  - lia.
  - intros i _. eexists. reflexivity.
  - reflexivity.
  - left. vm_compute. reflexivity.
Defined.

(** ** The caption generator: success and degenerate runs *)

Lemma attempts_made_emit evs r :
  attempts_made (emit evs r).1 =
  (attempts_made evs + attempts_made r.1)%nat.
Proof.
  unfold attempts_made, emit. cbn [fst].
  rewrite List.filter_app, length_app. reflexivity.
Qed.

Lemma retry_loop_first_success maxLength R outcome attempt lastError :
  forall (k : nat) (text : jsstring),
  attempt + Z.of_nat k < R ->
  (forall i, attempt <= i < attempt + Z.of_nat k ->
             exists e, outcome i = Rejected e) ->
  outcome (attempt + Z.of_nat k) = Resolved text ->
  (retry_loop maxLength R outcome attempt lastError).2
    = Return (sanitize maxLength text)
  /\ attempts_made (retry_loop maxLength R outcome attempt lastError).1 = S k.
Proof.
  funelim (retry_loop maxLength R outcome attempt lastError);
    intros k text' Hlt Hrej Hres.
  - lia.
  - destruct k as [|k].
    + replace (attempt + Z.of_nat 0) with attempt in Hres by lia.
      rewrite Heq in Hres. injection Hres as ->. split; reflexivity.
    + destruct (Hrej attempt) as [e He]; [lia|]. congruence.
  - destruct k as [|k].
    { replace (attempt + Z.of_nat 0) with attempt in Hres by lia. congruence. }
    destruct (H k text') as [Hret Hmade].
    + lia.
    + intros i Hi. apply Hrej. lia.
    + rewrite <- Hres. f_equal. lia.
    + destruct (is_rate_limit error), (attempt <? R - 1);
        (split; [unfold emit; cbn [snd]; exact Hret|]);
        rewrite attempts_made_emit, Hmade; reflexivity.
Qed.

(** The generator returns the sanitized text of the first attempt that
    succeeds, after exactly that many attempts; what later attempts would
    have met plays no part. *)
Theorem first_success_returns (maxLength R : Z)
    (outcome : Z -> attempt_outcome) (k : nat) (text : jsstring) :
  Z.of_nat k < R ->
  (forall i, 0 <= i < Z.of_nat k -> exists e, outcome i = Rejected e) ->
  outcome (Z.of_nat k) = Resolved text ->
  (run_attempts maxLength R outcome).2 = inr (sanitize maxLength text)
  /\ attempts_made (run_attempts maxLength R outcome).1 = S k
  /\ (run_attempts maxLength R outcome).1 =
       flat_map (segment R outcome) (List.map Z.of_nat (seq 0 (S k))).
Proof.
  intros Hlt Hrej Hres.
  destruct (retry_loop_first_success maxLength R outcome 0 None k text)
    as [Hret Hmade]; [lia|intros i Hi; apply Hrej; lia|exact Hres|].
  unfold run_attempts. cbn [fst snd]. rewrite Hret.
  split; [reflexivity|]. split; [exact Hmade|].
  destruct (retry_loop_trace maxLength R outcome 0 None) as (n & _ & Htr).
  assert (Hn : n = S k).
  { rewrite Htr, attempts_made_segments, length_map, length_seq in Hmade.
    exact Hmade. }
  subst n. rewrite Htr. f_equal.
Qed.

Lemma first_success_returns_witness :
  (run_attempts 100 3
     (fun i => if i <? 2 then Rejected rate_limit_by_status
               else Resolved (lit " 'Blue  snowboard' "))).2
  = inr (lit "Blue snowboard").
Proof.
  destruct (first_success_returns 100 3
              (fun i => if i <? 2 then Rejected rate_limit_by_status
                        else Resolved (lit " 'Blue  snowboard' "))
              2 (lit " 'Blue  snowboard' ")) as [Hret _].
  - lia.
  - intros i Hi. exists rate_limit_by_status.
    destruct (Z.ltb_spec i 2); [reflexivity|lia].
  - reflexivity.
  - rewrite Hret. vm_compute. reflexivity.
Defined.



(** ** Caption sanitation: what every result satisfies *)

Lemma drop_while_length p (s : list N) :
  (length (drop_while p s) <= length s)%nat.
Proof.
  destruct (drop_while_suffix p s) as [r Hr].
  rewrite Hr at 2. rewrite length_app. lia.
Qed.

Lemma drop_while_end_length p (s : list N) :
  (length (drop_while_end p s) <= length s)%nat.
Proof.
  destruct (drop_while_end_split p s) as (r & Hr & _).
  rewrite Hr at 2. rewrite length_app. lia.
Qed.

Lemma trim_length (s : list N) : (length (trim s) <= length s)%nat.
Proof.
  unfold trim. etransitivity; [apply drop_while_end_length|].
  apply drop_while_length.
Qed.

Lemma slice0_length (e : Z) (s : list N) :
  0 <= e -> (length (slice0 e s) <= Z.to_nat e)%nat.
Proof.
  intros He. unfold slice0. destruct (Z.leb_spec 0 e); [|lia].
  rewrite length_take. lia.
Qed.

Lemma slice0_prefix (e : Z) (s : list N) : exists r, s = slice0 e s ++ r.
Proof.
  unfold slice0. destruct (0 <=? e); eexists; symmetry; apply take_drop.
Qed.

Lemma single_spaced_app_dots b (s : list N) :
  single_spaced_from b s = true ->
  single_spaced_from b (s ++ ELLIPSIS) = true.
Proof.
  revert b. induction s as [|c t IH]; intros b; [reflexivity|].
  cbn [app single_spaced_from]. destruct (is_ws c).
  - rewrite !andb_true_iff. intros [Hc Ht]. split; [exact Hc|].
    apply IH, Ht.
  - apply IH.
Qed.

Lemma head_is_app_dots p (s : list N) :
  head_is p s = false -> head_is p ELLIPSIS = false ->
  head_is p (s ++ ELLIPSIS) = false.
Proof. destruct s; auto. Qed.

Lemma last_is_app_dots p (s : list N) :
  last_is p (s ++ ELLIPSIS) = p 46%N.
Proof.
  change ELLIPSIS with ([46%N; 46%N] ++ [46%N]).
  rewrite app_assoc. apply last_is_snoc.
Qed.

(** Whatever the provider returns, the caption handed to the caller is
    within the ceiling (for a ceiling of at least 3), has no white space at
    either end, and has no white space but single SPACE characters. *)
Theorem sanitize_result (maxLength : Z) (raw : jsstring) :
  3 <= maxLength ->
  len (sanitize maxLength raw) <= maxLength
  /\ head_is is_ws (sanitize maxLength raw) = false
  /\ last_is is_ws (sanitize maxLength raw) = false
  /\ single_spaced (sanitize maxLength raw) = true.
Proof.
  intros Hmax. unfold sanitize, enforce_max.
  destruct (Z.ltb_spec maxLength (len (normalize raw))) as [Hlong|Hshort].
  - set (kept := trim (slice0 (maxLength - 3) (normalize raw))).
    assert (Hlen : (length kept <= Z.to_nat (maxLength - 3))%nat).
    { unfold kept. etransitivity; [apply trim_length|].
      apply slice0_length. lia. }
    split; [rewrite len_app; unfold len; change (length ELLIPSIS) with 3%nat;
            lia|].
    split; [apply head_is_app_dots; [apply trim_head|reflexivity]|].
    split; [rewrite last_is_app_dots; reflexivity|].
    apply single_spaced_app_dots, trim_spaced.
    destruct (slice0_prefix (maxLength - 3) (normalize raw)) as [r Hr].
    pose proof (normalize_spaced raw) as Hs. unfold single_spaced in *.
    rewrite Hr in Hs. exact (single_spaced_app_l _ _ _ Hs).
  - split; [exact Hshort|]. split; [apply normalize_head|].
    split; [apply normalize_last|apply normalize_spaced].
Qed.

Lemma sanitize_result_witness :
  len (sanitize 60 space_at_cut) <= 60
  /\ single_spaced (sanitize 60 long_caption) = true.
Proof.
  destruct (sanitize_result 60 space_at_cut) as [Hlen _]; [lia|].
  destruct (sanitize_result 60 long_caption) as (_ & _ & _ & Hs); [lia|].
  split; assumption.
Defined.

(** ** Settings *)

(** [getSettings] is a get-or-create: it returns the row of the shop, which
    it creates from the defaults when there is none; a second read returns
    the same settings and changes nothing; no other shop and no other table
    is touched. *)
Theorem getSettings_get_or_create (shop : ident) (d : Db) :
  exists s d',
    getSettings shop d = inr (s, d')
    /\ appSettings d' !! shop = Some s
    /\ (appSettings d !! shop = None -> s = DEFAULT_SETTINGS)
    /\ (forall s0, appSettings d !! shop = Some s0 -> s = s0 /\ d' = d)
    /\ getSettings shop d' = inr (s, d')
    /\ (forall other, other <> shop ->
          appSettings d' !! other = appSettings d !! other)
    /\ scanHistory d' = scanHistory d
    /\ processedImage d' = processedImage d
    /\ failedJob d' = failedJob d.
Proof.
  unfold getSettings. destruct (appSettings d !! shop) as [s0|] eqn:Hrow.
  - exists s0, d. rewrite Hrow. split; [reflexivity|]. split; [reflexivity|].
    split; [discriminate|]. split; [intros s1 [= ->]; done|]. done.
  - eexists _, _. split; [reflexivity|]. cbn. rewrite lookup_insert_eq.
    split; [reflexivity|]. split; [reflexivity|]. split; [discriminate|].
    split; [reflexivity|]. split; [|done].
    intros other Hne. apply lookup_insert_ne. congruence.
Qed.

Lemma getSettings_get_or_create_witness :
  getSettings SHOP empty_db = inr (DEFAULT_SETTINGS, settings_example)
  /\ getSettings SHOP settings_example = inr (DEFAULT_SETTINGS, settings_example).
Proof.
  destruct (getSettings_get_or_create SHOP empty_db)
    as (s & d' & Hrun & _ & Hdef & _ & Hagain & _).
  assert (Hs : s = DEFAULT_SETTINGS) by (apply Hdef; reflexivity).
  subst s. unfold getSettings in Hrun. cbn in Hrun. injection Hrun as <-.
  split; [reflexivity|exact Hagain].
Defined.

Lemma patched_idem p row : patched p (patched p row) = patched p row.
Proof.
  unfold patched. cbn.
  destruct (u_altTextStyle p), (u_altTextLength p), (u_customPrompt p),
    (u_batchSize p), (u_autoRetry p), (u_maxRetries p); reflexivity.
Qed.

(** After [updateSettings] the shop's settings are the previous ones (the
    defaults, if it had none) with the given fields written over them;
    [getSettings] reads them back without change; fields left out keep
    their value; applying the same update again changes nothing; and no
    other shop and no other table is touched. *)
Theorem updateSettings_read_back (shop : ident) (p : SettingsPatch) (d : Db) :
  exists row d',
    updateSettings shop p d = inr (row, d')
    /\ row = patched p (default DEFAULT_SETTINGS (appSettings d !! shop))
    /\ getSettings shop d' = inr (row, d')
    /\ updateSettings shop p d' = inr (row, d')
    /\ (forall v, u_altTextLength p = Some v -> altTextLength row = v)
    /\ (forall v, u_maxRetries p = Some v -> maxRetries row = v)
    /\ (forall v, u_autoRetry p = Some v -> autoRetry row = v)
    /\ (u_maxRetries p = None ->
        maxRetries row =
          maxRetries (default DEFAULT_SETTINGS (appSettings d !! shop)))
    /\ (forall other, other <> shop ->
          appSettings d' !! other = appSettings d !! other)
    /\ scanHistory d' = scanHistory d
    /\ processedImage d' = processedImage d
    /\ failedJob d' = failedJob d.
Proof.
  eexists _, _. split; [reflexivity|].
  split; [destruct (appSettings d !! shop); reflexivity|].
  split; [unfold getSettings; cbn; rewrite lookup_insert_eq; reflexivity|].
  split.
  { unfold updateSettings. cbn. rewrite lookup_insert_eq, insert_insert_eq.
    destruct (appSettings d !! shop); rewrite patched_idem; reflexivity. }
  split.
  { intros v Hv. destruct (appSettings d !! shop); cbn; rewrite Hv; reflexivity. }
  split.
  { intros v Hv. destruct (appSettings d !! shop); cbn; rewrite Hv; reflexivity. }
  split.
  { intros v Hv. destruct (appSettings d !! shop); cbn; rewrite Hv; reflexivity. }
  split.
  { intros Hv. destruct (appSettings d !! shop); cbn; rewrite Hv; reflexivity. }
  split; [|done].
  intros other Hne. cbn. apply lookup_insert_ne. congruence.
Qed.

Lemma updateSettings_read_back_witness :
  exists row d',
    updateSettings SHOP patch_example settings_example = inr (row, d')
    /\ getSettings SHOP d' = inr (row, d')
    /\ getMaxLength (altTextLength row) = 60
    /\ autoRetry row = false
    /\ maxRetries row = 3.
Proof.
  destruct (updateSettings_read_back SHOP patch_example settings_example)
    as (row & d' & Hrun & _ & Hread & _ & Hlen & _ & Hauto & Hkeep & _).
  exists row, d'. split; [exact Hrun|]. split; [exact Hread|].
  split; [rewrite (Hlen "short" eq_refl); reflexivity|].
  split; [apply Hauto; reflexivity|].
  rewrite Hkeep; reflexivity.
Defined.

(** ** The catalog paginator *)

Lemma fetch_all_loop_serves admin pageSize onProgress pages :
  forall n cursor fuel allProducts calls,
  serves admin pageSize n cursor pages ->
  (length pages <= fuel)%nat ->
  fetch_all_loop fuel admin pageSize onProgress n allProducts cursor calls =
  Some {| fetched := inr (allProducts ++ all_products pages);
          progress := if onProgress
                      then calls ++ progress_calls (length allProducts) pages
                      else calls;
          requests := (n + length pages)%nat |}.
Proof.
  induction pages as [|page rest IH];
    intros n cursor fuel allProducts calls Hserves Hfuel; [destruct Hserves|].
  destruct fuel as [|fuel]; [simpl in Hfuel; lia|].
  destruct Hserves as [Hpage Hrest]. cbn [fetch_all_loop]. rewrite Hpage.
  destruct rest as [|page' rest'].
  - rewrite Hrest. unfold all_products. cbn. rewrite app_nil_r.
    do 2 f_equal; [|lia].
    destruct onProgress; [|reflexivity]. rewrite length_app. reflexivity.
  - destruct Hrest as [Hnext Hrest]. rewrite Hnext.
    rewrite (IH _ _ _ _ _ Hrest) by (simpl in *; lia).
    unfold all_products. cbn [List.map concat progress_calls].
    rewrite <- !app_assoc, length_app. do 2 f_equal.
    + destruct onProgress; [|reflexivity]. rewrite <- app_assoc. reflexivity.
    + cbn [length]. lia.
Qed.

(** When the platform serves the catalog in a chain of pages, each but the
    last announcing a next page, [fetchAllProducts] returns all the products
    of all the pages in order, after one request per page, and has reported
    each page with the running total. *)
Theorem fetchAllProducts_complete (admin : nat -> Z -> option ident ->
                                            js_error + ProductsPage)
    (pageSize : option Z) (onProgress : bool) (pages : list ProductsPage)
    (fuel : nat) :
  serves admin pageSize 0 None pages ->
  (length pages <= fuel)%nat ->
  fetchAllProducts fuel admin pageSize onProgress =
  Some {| fetched := inr (all_products pages);
          progress := if onProgress then progress_calls 0 pages else [];
          requests := length pages |}.
Proof.
  intros Hserves Hfuel. unfold fetchAllProducts.
  rewrite (fetch_all_loop_serves _ _ _ _ _ _ _ _ _ Hserves Hfuel).
  destruct onProgress; reflexivity.
Qed.

Lemma fetchAllProducts_complete_witness :
  fetchAllProducts 5 two_pages_admin None true =
  Some {| fetched := inr [product_a; product_b];
          progress := [([product_a], 1); ([product_b], 2)];
          requests := 2 |}.
Proof.
  apply (fetchAllProducts_complete two_pages_admin None true
           [page_one; page_two] 5).
  - cbn. repeat split; reflexivity.
  - cbn. lia.
Defined.

Lemma fetch_all_loop_rejects admin pageSize onProgress pages e :
  forall n cursor fuel allProducts calls,
  serves_then_rejects admin pageSize n cursor pages e ->
  (length pages < fuel)%nat ->
  fetch_all_loop fuel admin pageSize onProgress n allProducts cursor calls =
  Some {| fetched := inl e;
          progress := if onProgress
                      then calls ++ progress_calls (length allProducts) pages
                      else calls;
          requests := S (n + length pages) |}.
Proof.
  induction pages as [|page rest IH];
    intros n cursor fuel allProducts calls Hserves Hfuel.
  - destruct fuel as [|fuel]; [simpl in Hfuel; lia|].
    cbn in Hserves. cbn [fetch_all_loop]. rewrite Hserves. cbn.
    rewrite app_nil_r. do 2 f_equal; [destruct onProgress; reflexivity|lia].
  - destruct fuel as [|fuel]; [simpl in Hfuel; lia|].
    destruct Hserves as (Hpage & Hnext & Hrest).
    cbn [fetch_all_loop]. rewrite Hpage, Hnext.
    rewrite (IH _ _ _ _ _ Hrest) by (simpl in *; lia).
    cbn [progress_calls length]. rewrite length_app. do 2 f_equal.
    + destruct onProgress; [|reflexivity]. rewrite <- app_assoc. reflexivity.
    + lia.
Qed.

(** When a page request rejects, [fetchAllProducts] rejects with the same
    value: the products of the pages fetched before are not returned. *)
Theorem fetchAllProducts_rejects (admin : nat -> Z -> option ident ->
                                           js_error + ProductsPage)
    (pageSize : option Z) (onProgress : bool) (pages : list ProductsPage)
    (e : js_error) (fuel : nat) :
  serves_then_rejects admin pageSize 0 None pages e ->
  (length pages < fuel)%nat ->
  fetchAllProducts fuel admin pageSize onProgress =
  Some {| fetched := inl e;
          progress := if onProgress then progress_calls 0 pages else [];
          requests := S (length pages) |}.
Proof.
  intros Hserves Hfuel. unfold fetchAllProducts.
  rewrite (fetch_all_loop_rejects _ _ _ _ _ _ _ _ _ _ Hserves Hfuel).
  destruct onProgress; reflexivity.
Qed.

Lemma fetchAllProducts_rejects_witness :
  fetchAllProducts 5 failing_admin None false =
  Some {| fetched := inl (Error (lit "503 Service Unavailable"));
          progress := []; requests := 2 |}.
Proof.
  apply (fetchAllProducts_rejects failing_admin None false [page_one]
           (Error (lit "503 Service Unavailable")) 5).
  - cbn. repeat split; reflexivity.
  - cbn. lia.
Defined.

Lemma batched_loop_agrees admin pageSize :
  forall fuel n cursor seen allProducts calls,
  allProducts = concat seen ->
  calls.*1 = seen ->
  match batched_loop fuel admin pageSize n cursor seen,
        fetch_all_loop fuel admin pageSize true n allProducts cursor calls with
  | None, None => True
  | Some b, Some a =>
      batch_requests b = requests a
      /\ yielded b = (progress a).*1
      /\ fetched a = match thrown b with
                     | None => inr (concat (yielded b))
                     | Some e => inl e
                     end
  | _, _ => False
  end.
Proof.
  induction fuel as [|fuel IH]; intros n cursor seen allProducts calls Hall Hcalls;
    [exact I|].
  cbn [batched_loop fetch_all_loop].
  destruct (fetchProductsPage admin n pageSize cursor) as [e|page].
  - cbn. auto.
  - destruct (hasNextPage (pageInfo page)).
    + apply IH.
      * rewrite concat_app. cbn. rewrite app_nil_r. congruence.
      * rewrite fmap_app. cbn. congruence.
    + cbn. rewrite fmap_app, concat_app. cbn. rewrite app_nil_r.
      repeat split; congruence.
Qed.

(** Drained, [fetchProductsBatched] makes the same requests as
    [fetchAllProducts] and yields, one batch per page, the products that
    [fetchAllProducts] concatenates; when a request rejects, the batches of
    the earlier pages have been yielded all the same. *)
Theorem fetchProductsBatched_agrees (admin : nat -> Z -> option ident ->
                                              js_error + ProductsPage)
    (pageSize : option Z) (fuel : nat) :
  match fetchProductsBatched fuel admin pageSize,
        fetchAllProducts fuel admin pageSize true with
  | None, None => True
  | Some b, Some a =>
      batch_requests b = requests a
      /\ yielded b = (progress a).*1
      /\ fetched a = match thrown b with
                     | None => inr (concat (yielded b))
                     | Some e => inl e
                     end
  | _, _ => False
  end.
Proof. apply batched_loop_agrees; reflexivity. Qed.

Lemma fetch_all_loop_endless admin pageSize onProgress :
  (forall n cursor, exists page,
     fetchProductsPage admin n pageSize cursor = inr page
     /\ hasNextPage (pageInfo page) = true) ->
  forall fuel n allProducts cursor calls,
  fetch_all_loop fuel admin pageSize onProgress n allProducts cursor calls
  = None.
Proof.
  intros Hnext. induction fuel as [|fuel IH];
    intros n allProducts cursor calls; [reflexivity|].
  cbn [fetch_all_loop]. destruct (Hnext n cursor) as (page & -> & ->).
  apply IH.
Qed.

(** The loop of [fetchAllProducts] has no bound on the number of pages: on a
    platform that announces a next page after every page it never returns,
    however many pages it is given the time to fetch. *)
Theorem fetchAllProducts_unbounded (admin : nat -> Z -> option ident ->
                                             js_error + ProductsPage)
    (pageSize : option Z) (onProgress : bool) :
  (forall n cursor, exists page,
     fetchProductsPage admin n pageSize cursor = inr page
     /\ hasNextPage (pageInfo page) = true) ->
  forall fuel, fetchAllProducts fuel admin pageSize onProgress = None.
Proof.
  intros Hnext fuel. apply fetch_all_loop_endless, Hnext.
Qed.

Lemma fetchAllProducts_unbounded_witness :
  fetchAllProducts 1000 endless_admin None false = None.
Proof.
  apply (fetchAllProducts_unbounded endless_admin None false).
  intros n cursor. exists page_one. split; reflexivity.
Defined.

(** ** The figures of the processing page and the scan *)

Lemma fold_left_count {A} (f : A -> Z) (l : list A) (z : Z) :
  fold_left (fun count x => count + f x) l z
  = z + fold_left (fun count x => count + f x) l 0.
Proof.
  revert z. induction l as [|x l IH]; intros z; cbn; [lia|].
  rewrite IH, (IH (0 + f x)). lia.
Qed.

Lemma image_media_length (p : ProductNode) :
  length (image_media p) = length (List.filter has_image (p_media p)).
Proof.
  unfold image_media. induction (p_media p) as [|m ms IH]; [reflexivity|].
  cbn. unfold has_image. destruct (m_image m); cbn; rewrite IH; reflexivity.
Qed.

Lemma needs_caption_lacks (m : MediaImage) (url : ident) :
  m_image m = Some url -> needs_caption false (m, url) = lacks_alt_text m.
Proof.
  intros Himg.
  unfold lacks_alt_text, has_image, needs_caption, has_alt_text, falsy.
  rewrite Himg. cbn. destruct (m_alt m) as [alt|]; [|reflexivity].
  destruct (is_empty alt), (is_empty (trim alt)); reflexivity.
Qed.

Lemma image_media_needs (p : ProductNode) :
  length (List.filter (needs_caption false) (image_media p))
  = length (List.filter lacks_alt_text (p_media p)).
Proof.
  unfold image_media. induction (p_media p) as [|m ms IH]; [reflexivity|].
  cbn [List.filter]. destruct (m_image m) as [url|] eqn:Himg.
  - change (omap ?f (m :: ms)) with
      (match f m with Some y => y :: omap f ms | None => omap f ms end).
    cbn beta. rewrite Himg. cbn [List.filter].
    rewrite (needs_caption_lacks m url Himg).
    destruct (lacks_alt_text m); cbn [length]; rewrite IH; reflexivity.
  - change (omap ?f (m :: ms)) with
      (match f m with Some y => y :: omap f ms | None => omap f ms end).
    cbn beta. rewrite Himg.
    assert (Hl : lacks_alt_text m = false)
      by (unfold lacks_alt_text, has_image; rewrite Himg; reflexivity).
    rewrite Hl. exact IH.
Qed.

Lemma shownTotalImages_catalog (products : list ProductNode) :
  shownTotalImages products = Z.of_nat (length (catalog_images products)).
Proof.
  unfold shownTotalImages, catalog_images.
  induction products as [|p ps IH]; [reflexivity|].
  cbn [fold_left flat_map]. rewrite fold_left_count, IH, length_app,
    image_media_length. lia.
Qed.

Lemma missingCount_scan (products : list ProductNode) :
  missingCount products = missing_count false products.
Proof.
  unfold missingCount, missing_count, catalog_images.
  induction products as [|p ps IH]; [reflexivity|].
  cbn [fold_left flat_map]. rewrite fold_left_count, IH, List.filter_app,
    length_app, image_media_needs. lia.
Qed.

(** The two figures of the processing page are the counts a scan without
    [forceAll] reports for the same catalog: [totalImages] is the number of
    images and [missingCount] the number of images the scan will try to
    caption.  The [missingImages] figure of a row counts only the images
    whose alt text is absent or empty, so it is never above the number of
    images of the product that the scan will try to caption. *)
Theorem page_figures_match_scan (products : list ProductNode) :
  shownTotalImages products = Z.of_nat (length (catalog_images products))
  /\ missingCount products = missing_count false products
  /\ (forall E shop st c st',
        action E shop false st = (inr c, st') ->
        products_query E (S (S (tick st))) = inr products ->
        c_totalImages c = shownTotalImages products
        /\ c_missingAltText c = missingCount products)
  /\ (forall item,
        missingImages item <=
        Z.of_nat (length (List.filter lacks_alt_text (p_media item)))).
Proof.
  pose proof (shownTotalImages_catalog products) as Htotal.
  pose proof (missingCount_scan products) as Hmissing.
  split; [exact Htotal|]. split; [exact Hmissing|]. split.
  - intros E shop st c st' Hrun Hq.
    destruct (scan_counts_images E shop false st c st' Hrun)
      as (products' & scanId & scan & Hq' & Ht & Hm & _).
    rewrite Hq in Hq'. injection Hq' as <-.
    rewrite Htotal, Hmissing. split; assumption.
  - intros item. unfold missingImages. apply inj_le, List_filter_length_le.
    intros m. unfold lacks_alt_text. rewrite !andb_true_iff, orb_true_iff.
    tauto.
Qed.

Lemma page_figures_match_scan_witness :
  let run := action (calm_env [product_a; product_b]) SHOP false
                    (start empty_db) in
  (exists c, run.1 = inr c
     /\ c_missingAltText c = missingCount [product_a; product_b]
     /\ c_totalImages c = shownTotalImages [product_a; product_b])
  /\ missingImages product_blank = 0
  /\ missingCount [product_blank] = 1.
Proof.
  intros run.
  destruct (page_figures_match_scan [product_a; product_b])
    as (_ & _ & Hscan & _).
  split; [|split; vm_compute; reflexivity].
  destruct run as [[e|c] st'] eqn:Hrun.
  - apply (f_equal fst) in Hrun. vm_compute in Hrun. discriminate.
  - exists c. split; [reflexivity|].
    destruct (Hscan _ _ _ _ _ Hrun) as [Ht Hm]; [reflexivity|].
    split; assumption.
Defined.
